(** * Circle challenge: stroke capture and circle scorer

    A shallow embedding of [src/App.tsx]: the scoring function
    [scoreDrawing], the pointer mapping [getPointerPosition], the canvas
    initialisation effect and the pointer handlers that drive the score
    state ([lastScore], [bestScore], [hasAttempt]), and the calls the
    handlers make on the 2D rendering context.

    Numbers.  A JavaScript [number] is modelled by a real number of the
    Standard Library: arithmetic is exact, there is no rounding, no
    overflow and no NaN.  Division is the total division of [R]; every
    statement that divides fixes the divisor to a non-zero value by a
    hypothesis or by the data.  Statements about the score in this model
    are bounds, ranges and rounded results away from a rounding tie; what
    depends on the order or the rounding of the floating-point operations
    is stated over [Num.Arith], where the operations are left open.  The
    [width] and [height] of the canvas are integers, as the DOM stores
    them. *)

From Stdlib Require Import Reals Lra Lia List ZArith Bool Arith.
From Stdlib Require String.
Import String.StringSyntax.
Delimit Scope string_scope with string.
Import ListNotations.

Open Scope R_scope.

(** ** The [Math] object and the [**] operator *)

Module Math.

Definition PI : R := Rtrigo1.PI.

(** [Math.hypot(a, b)]: square root of the sum of squares. *)
Definition hypot (a b : R) : R := sqrt (a * a + b * b).

Definition abs (a : R) : R := Rabs a.

Definition max (a b : R) : R := Rmax a b.

Definition min (a b : R) : R := Rmin a b.

(** [Math.round(a)]: the integer nearest to [a], ties going up, that is
    the floor of [a + 1/2].  [Int_part] is the floor. *)
Definition round (a : R) : R := IZR (Int_part (a + / 2)).

(** [a ** b] for a base [0 <= a] and an exponent [0 < b], the only use
    the source has ([coverageRatio ** 0.75]): [0 ** b] is [0]. *)
Definition pow (a b : R) : R :=
  if Req_dec_T a 0 then 0 else Rpower a b.

End Math.

(** ** Data *)

Record Point : Type := mkPoint { x : R; y : R }.

Definition CANVAS_SIZE : R := 320.

(** [points[i]] of the source; the default is never read by the loop, whose
    index stays below [points.length]. *)
Definition origin : Point := mkPoint 0 0.

Definition at_index (points : list Point) (i : nat) : Point :=
  nth i points origin.

(** ** scoreDrawing (App.tsx, lines 108-141) *)

(** One iteration of the [for] loop: the accumulators are
    [(deviationSum, pathLength)]. *)
Definition scoreLoopBody (points : list Point) (cx cy radius : R)
    (acc : R * R) (i : nat) : R * R :=
  let '(deviationSum, pathLength) := acc in
  let point := at_index points i in
  let distance := Math.hypot (x point - cx) (y point - cy) in
  let deviationSum := deviationSum + Math.abs (distance - radius) in
  let pathLength :=
    if (0 <? i)%nat then
      let prev := at_index points (i - 1) in
      pathLength + Math.hypot (x point - x prev) (y point - y prev)
    else pathLength in
  (deviationSum, pathLength).

(** The loop [for (let i = 0; i < points.length; i += 1)]. *)
Definition scoreLoop (points : list Point) (cx cy radius : R) : R * R :=
  fold_left (scoreLoopBody points cx cy radius)
            (seq 0 (length points)) (0, 0).

(** The local constants computed after the length guard. *)
Record ScoreTerms : Type := mkScoreTerms {
  avgDeviation : R;
  deviationScore : R;
  coverageRatio : R;
  coverageScore : R;
  finalScore : R
}.

Definition scoreTerms (center : Point) (radius : R) (points : list Point)
    : ScoreTerms :=
  let cx := x center in
  let cy := y center in
  let circumference := 2 * Math.PI * radius in
  let '(deviationSum, pathLength) := scoreLoop points cx cy radius in
  let avgDeviation := deviationSum / INR (length points) in
  let deviationScore := Math.max 0 (1 - avgDeviation / (radius * 0.6)) in
  let coverageRatio := Math.min (pathLength / (circumference * 0.9)) 1 in
  let coverageScore := Math.pow coverageRatio 0.75 in
  let finalScore :=
    Math.round ((deviationScore * 0.65 + coverageScore * 0.35) * 100) in
  mkScoreTerms avgDeviation deviationScore coverageRatio coverageScore
               finalScore.

(** [scoreDrawing] reads [pointsRef], [centerRef] and [radiusRef]; here they
    are its arguments. *)
Definition scoreDrawing (center : Point) (radius : R) (points : list Point)
    : R :=
  if (length points <? 6)%nat then 0
  else
    Math.max 0 (Math.min (finalScore (scoreTerms center radius points)) 100).

(** ** Canvas element, pointer events and component state *)

(** What [canvas.getBoundingClientRect()] returns; only [left], [top] and
    [width] are read. *)
Record DOMRect : Type := mkDOMRect {
  rect_left : R;
  rect_top : R;
  rect_width : R
}.

(** The canvas element: its backing store size, its CSS size in pixels, its
    layout box, whether [getContext("2d")] yields a context, and the pointer
    ids it has captured. *)
Record Canvas : Type := mkCanvas {
  canvas_width : R;
  canvas_height : R;
  style_width : R;
  style_height : R;
  boundingClientRect : DOMRect;
  context2d : bool;
  pointerCapture : list nat
}.

Record PointerEvent : Type := mkPointerEvent {
  clientX : R;
  clientY : R;
  pointerId : nat
}.

(** The refs and the state variables of [App].  [contextRef] is [true] when
    a rendering context is stored, [canvasRef] is [None] when the ref is
    null. *)
Record AppState : Type := mkAppState {
  canvasRef : option Canvas;
  contextRef : bool;
  isDrawingRef : bool;
  pointsRef : list Point;
  dprRef : R;
  centerRef : Point;
  radiusRef : R;
  lastScore : option R;
  bestScore : R;
  hasAttempt : bool
}.

(** The state at mount, before the canvas effect runs. *)
Definition initialState (canvas : option Canvas) : AppState :=
  mkAppState canvas false false [] 1
             (mkPoint (CANVAS_SIZE / 2) (CANVAS_SIZE / 2))
             (CANVAS_SIZE * 0.38)
             None 0 false.

(** [window.devicePixelRatio || 1]: a falsy ratio (zero) falls back to 1. *)
Definition orOne (devicePixelRatio : R) : R :=
  if Req_dec_T devicePixelRatio 0 then 1 else devicePixelRatio.

(** [canvas.width] and [canvas.height] are [unsigned long] attributes of the
    DOM: a number assigned to them is truncated toward zero and reduced
    modulo 2^32, and a result above 2147483647 is replaced by the default
    of the attribute (300 for the width, 150 for the height). *)
Definition truncate (v : R) : Z :=
  if Rle_dec 0 v then Int_part v else (- Int_part (- v))%Z.

Definition canvasDimension (default : Z) (v : R) : R :=
  let n := (truncate v mod 4294967296)%Z in
  IZR (if (n <=? 2147483647)%Z then n else default).

(** The canvas initialisation effect (lines 63-92). *)
Definition initCanvas (windowDevicePixelRatio : R) (s : AppState) : AppState :=
  match canvasRef s with
  | None => s
  | Some canvas =>
    if negb (context2d canvas) then s
    else
      let devicePixelRatio := orOne windowDevicePixelRatio in
      let canvas' :=
        mkCanvas (canvasDimension 300 (CANVAS_SIZE * devicePixelRatio))
                 (canvasDimension 150 (CANVAS_SIZE * devicePixelRatio))
                 CANVAS_SIZE CANVAS_SIZE
                 (boundingClientRect canvas) (context2d canvas)
                 (pointerCapture canvas) in
      mkAppState (Some canvas') true (isDrawingRef s) (pointsRef s)
                 devicePixelRatio
                 (mkPoint (CANVAS_SIZE / 2) (CANVAS_SIZE / 2))
                 (CANVAS_SIZE * 0.38)
                 (lastScore s) (bestScore s) (hasAttempt s)
  end.

(** [getPointerPosition] (lines 94-106); [None] is the source's [null]. *)
Definition getPointerPosition (s : AppState) (event : PointerEvent)
    : option Point :=
  match canvasRef s with
  | None => None
  | Some canvas =>
    let rect := boundingClientRect canvas in
    let scale := canvas_width canvas / rect_width rect in
    Some (mkPoint ((clientX event - rect_left rect) * (scale / dprRef s))
                  ((clientY event - rect_top rect) * (scale / dprRef s)))
  end.

(** Pointer capture of the event's target, the canvas. *)
Definition hasPointerCapture (canvas : Canvas) (id : nat) : bool :=
  existsb (Nat.eqb id) (pointerCapture canvas).

Definition withPointerCapture (canvas : Canvas) (ids : list nat) : Canvas :=
  mkCanvas (canvas_width canvas) (canvas_height canvas)
           (style_width canvas) (style_height canvas)
           (boundingClientRect canvas) (context2d canvas) ids.

Definition setPointerCapture (canvas : Canvas) (id : nat) : Canvas :=
  if hasPointerCapture canvas id then canvas
  else withPointerCapture canvas (id :: pointerCapture canvas).

Definition releasePointerCapture (canvas : Canvas) (id : nat) : Canvas :=
  withPointerCapture canvas
    (filter (fun j => negb (Nat.eqb id j)) (pointerCapture canvas)).

Definition withCanvas (s : AppState) (canvas : option Canvas) : AppState :=
  mkAppState canvas (contextRef s) (isDrawingRef s) (pointsRef s)
             (dprRef s) (centerRef s) (radiusRef s)
             (lastScore s) (bestScore s) (hasAttempt s).

Definition withStroke (s : AppState) (drawing : bool) (points : list Point)
    : AppState :=
  mkAppState (canvasRef s) (contextRef s) drawing points
             (dprRef s) (centerRef s) (radiusRef s)
             (lastScore s) (bestScore s) (hasAttempt s).

(** [handlePointerDown] (lines 143-168). *)
Definition handlePointerDown (s : AppState) (event : PointerEvent)
    : AppState :=
  if negb (contextRef s) then s
  else
    match getPointerPosition s event with
    | None => s
    | Some position =>
      let s1 :=
        withCanvas s
          (option_map (fun c => setPointerCapture c (pointerId event))
                      (canvasRef s)) in
      withStroke s1 true [position]
    end.

(** [handlePointerMove] (lines 170-199).  [points[points.length - 1]] is
    undefined on an empty buffer and reading its [x] throws before the
    push: the handler then leaves every ref as it was. *)
Definition handlePointerMove (s : AppState) (event : PointerEvent)
    : AppState :=
  if negb (isDrawingRef s) then s
  else if negb (contextRef s) then s
  else
    match getPointerPosition s event with
    | None => s
    | Some position =>
      match pointsRef s with
      | [] => s
      | _ :: _ => withStroke s (isDrawingRef s) (pointsRef s ++ [position])
      end
    end.

(** [finishDrawing] (lines 201-218). *)
Definition finishDrawing (s : AppState) : AppState :=
  if negb (isDrawingRef s) then s
  else
    let s1 := withStroke s false (pointsRef s) in
    let attemptPoints := pointsRef s1 in
    if (length attemptPoints =? 0)%nat then s1
    else
      let nextScore :=
        scoreDrawing (centerRef s1) (radiusRef s1) (pointsRef s1) in
      mkAppState (canvasRef s1) (contextRef s1) (isDrawingRef s1) []
                 (dprRef s1) (centerRef s1) (radiusRef s1)
                 (Some nextScore)
                 (Math.max (bestScore s1) nextScore)
                 true.

(** [releaseIfCaptured] (lines 220-224). *)
Definition releaseIfCaptured (s : AppState) (event : PointerEvent)
    : AppState :=
  match canvasRef s with
  | None => s
  | Some canvas =>
    if hasPointerCapture canvas (pointerId event)
    then withCanvas s (Some (releasePointerCapture canvas (pointerId event)))
    else s
  end.

(** The three terminating handlers (lines 226-248). *)
Definition handlePointerUp (s : AppState) (event : PointerEvent) : AppState :=
  finishDrawing (releaseIfCaptured s event).

Definition handlePointerLeave (s : AppState) (event : PointerEvent)
    : AppState :=
  finishDrawing (releaseIfCaptured s event).

Definition handlePointerCancel (s : AppState) (event : PointerEvent)
    : AppState :=
  finishDrawing (releaseIfCaptured s event).

(** ** The component as a transition system *)

Inductive Event : Type :=
  | CanvasEffect (windowDevicePixelRatio : R)
  | PointerDown (event : PointerEvent)
  | PointerMove (event : PointerEvent)
  | PointerUp (event : PointerEvent)
  | PointerLeave (event : PointerEvent)
  | PointerCancel (event : PointerEvent).

Definition step (s : AppState) (e : Event) : AppState :=
  match e with
  | CanvasEffect r => initCanvas r s
  | PointerDown ev => handlePointerDown s ev
  | PointerMove ev => handlePointerMove s ev
  | PointerUp ev => handlePointerUp s ev
  | PointerLeave ev => handlePointerLeave s ev
  | PointerCancel ev => handlePointerCancel s ev
  end.

Definition run (s : AppState) (es : list Event) : AppState :=
  fold_left step es s.

(** The states after each event of a run, oldest first. *)
Fixpoint trace (s : AppState) (es : list Event) : list AppState :=
  match es with
  | [] => []
  | e :: es' => step s e :: trace (step s e) es'
  end.

Definition isTerminating (e : Event) : bool :=
  match e with
  | PointerUp _ | PointerLeave _ | PointerCancel _ => true
  | _ => false
  end.

(** The [lastScore] values shown by a list of states, nulls dropped. *)
Fixpoint lastScores (ss : list AppState) : list R :=
  match ss with
  | [] => []
  | s :: ss' =>
    match lastScore s with
    | Some v => v :: lastScores ss'
    | None => lastScores ss'
    end
  end.

(** Maximum of a list of scores, [0] for the empty list (scores are never
    negative). *)
Definition maxScore (l : list R) : R := fold_right Rmax 0 l.

(** ** The scorer over any arithmetic

    [scoreDrawing] once more, with the number type and every operation it
    uses on numbers left open: the JavaScript operators [+ - * /], the
    [Math] functions, [**], the numeric literals and the conversion of
    [points.length].  IEEE double arithmetic with the [Math] library of the
    engine is one such arithmetic, the exact reals of the rest of this file
    are another ([realArith]).  No law is assumed of the operations, so the
    order in which the source adds matters and is kept. *)

Module Num.

Record Arith : Type := mkArith {
  num : Type;
  (** the literal written [m / 10^e]: [0.65] is [decimal 65 2] *)
  decimal : Z -> nat -> num;
  (** [points.length] as a number *)
  ofLength : nat -> num;
  add : num -> num -> num;
  sub : num -> num -> num;
  mul : num -> num -> num;
  div : num -> num -> num;
  PI : num;
  hypot : num -> num -> num;
  abs : num -> num;
  max : num -> num -> num;
  min : num -> num -> num;
  round : num -> num;
  pow : num -> num -> num
}.

Record Point (N : Arith) : Type := mkPoint { x : num N; y : num N }.

Arguments mkPoint {N} _ _.
Arguments x {N} _.
Arguments y {N} _.

Declare Scope num_scope.
Delimit Scope num_scope with num.

Section Scorer.

Variable N : Arith.

Local Notation "a + b" := (add N a b) : num_scope.
Local Notation "a - b" := (sub N a b) : num_scope.
Local Notation "a * b" := (mul N a b) : num_scope.
Local Notation "a / b" := (div N a b) : num_scope.
Local Notation "m 'e-' e" := (decimal N m e) (at level 1) : num_scope.

Local Open Scope num_scope.

Definition at_index (points : list (Point N)) (i : nat) : Point N :=
  nth i points (mkPoint (0 e- 0) (0 e- 0)).

(** One iteration of the loop of lines 121-130. *)
Definition scoreLoopBody (points : list (Point N)) (cx cy radius : num N)
    (acc : num N * num N) (i : nat) : num N * num N :=
  let '(deviationSum, pathLength) := acc in
  let point := at_index points i in
  let distance := hypot N (x point - cx) (y point - cy) in
  let deviationSum := deviationSum + abs N (distance - radius) in
  let pathLength :=
    if (0 <? i)%nat then
      let prev := at_index points (i - 1)%nat in
      pathLength + hypot N (x point - x prev) (y point - y prev)
    else pathLength in
  (deviationSum, pathLength).

Definition scoreLoop (points : list (Point N)) (cx cy radius : num N)
    : num N * num N :=
  fold_left (scoreLoopBody points cx cy radius)
            (seq 0 (length points)) (0 e- 0, 0 e- 0).

(** [scoreDrawing] (lines 108-141). *)
Definition scoreDrawing (center : Point N) (radius : num N)
    (points : list (Point N)) : num N :=
  if (length points <? 6)%nat then 0 e- 0
  else
    let cx := x center in
    let cy := y center in
    let circumference := 2 e- 0 * PI N * radius in
    let '(deviationSum, pathLength) := scoreLoop points cx cy radius in
    let avgDeviation := deviationSum / ofLength N (length points) in
    let deviationScore :=
      max N (0 e- 0) (1 e- 0 - avgDeviation / (radius * 6 e- 1)) in
    let coverageRatio :=
      min N (pathLength / (circumference * 9 e- 1)) (1 e- 0) in
    let coverageScore := pow N coverageRatio (75 e- 2) in
    let finalScore :=
      round N ((deviationScore * 65 e- 2 + coverageScore * 35 e- 2)
               * 100 e- 0) in
    max N (0 e- 0) (min N finalScore (100 e- 0)).

(** The reference definition of section 4.2 in the same arithmetic.  Step 2
    and step 4 accumulate: the sums start from 0 and take the samples in
    stroke order. *)

(** Distance from [p] to [q]. *)
Definition distance (p q : Point N) : num N :=
  hypot N (x p - x q) (y p - y q).

Definition accumulate (l : list (num N)) : num N :=
  fold_left (add N) l (0 e- 0).

(** Step 2. *)
Definition avgDeviation (center : Point N) (radius : num N)
    (stroke : list (Point N)) : num N :=
  accumulate (map (fun p => abs N (distance p center - radius)) stroke)
  / ofLength N (length stroke).

(** Step 3. *)
Definition deviationScore (center : Point N) (radius : num N)
    (stroke : list (Point N)) : num N :=
  max N (0 e- 0)
      (1 e- 0 - avgDeviation center radius stroke / (radius * 6 e- 1)).

(** Step 4: the distance of each sample but the first to the sample before
    it. *)
Fixpoint steps (stroke : list (Point N)) : list (num N) :=
  match stroke with
  | prev :: (point :: _) as rest => distance point prev :: steps rest
  | _ => []
  end.

Definition pathLength (stroke : list (Point N)) : num N :=
  accumulate (steps stroke).

(** Step 5. *)
Definition coverageRatio (radius : num N) (stroke : list (Point N))
    : num N :=
  min N (pathLength stroke / (2 e- 0 * PI N * radius * 9 e- 1)) (1 e- 0).

(** Step 6. *)
Definition coverageScore (radius : num N) (stroke : list (Point N))
    : num N :=
  pow N (coverageRatio radius stroke) (75 e- 2).

Definition clamp (lo hi v : num N) : num N := max N lo (min N v hi).

(** Steps 1 and 7. *)
Definition specScore (stroke : list (Point N)) (center : Point N)
    (radius : num N) : num N :=
  if (length stroke <? 6)%nat then 0 e- 0
  else
    clamp (0 e- 0) (100 e- 0)
      (round N
         ((deviationScore center radius stroke * 65 e- 2
           + coverageScore radius stroke * 35 e- 2) * 100 e- 0)).

(** The last recorded sample, as a list of at most one point. *)
Definition lastSample (pre : list (Point N)) : list (Point N) :=
  match pre with
  | [] => []
  | _ :: _ => [last pre (mkPoint (0 e- 0) (0 e- 0))]
  end.

End Scorer.

End Num.

(** The exact reals with the [Math] module of this file. *)
Definition realArith : Num.Arith :=
  Num.mkArith R (fun m e => IZR m / 10 ^ e) INR Rplus Rminus Rmult Rdiv
              Math.PI Math.hypot Math.abs Math.max Math.min Math.round
              Math.pow.

Definition toReal (p : Num.Point realArith) : Point :=
  mkPoint (Num.x p) (Num.y p).

(** ** The reference definition of the score, from the specification

    Section 4.2 of the specification, step by step, with sums and means over
    the stroke instead of the loop of the source. *)

Module Spec.

(** Euclidean distance between two points. *)
Definition distance (p q : Point) : R :=
  sqrt ((x p - x q) ^ 2 + (y p - y q) ^ 2).

Definition sum (l : list R) : R := fold_right Rplus 0 l.

(** Consecutive samples: one pair per segment, none for the first sample. *)
Fixpoint segments (stroke : list Point) : list (Point * Point) :=
  match stroke with
  | p :: (q :: _) as rest => (p, q) :: segments rest
  | _ => []
  end.

(** Step 2: mean over all samples of |distance to centre - radius|. *)
Definition avgDeviation (center : Point) (radius : R)
    (stroke : list Point) : R :=
  sum (map (fun p => Rabs (distance p center - radius)) stroke)
  / INR (length stroke).

(** Step 3. *)
Definition deviationScore (center : Point) (radius : R)
    (stroke : list Point) : R :=
  Rmax 0 (1 - avgDeviation center radius stroke / (radius * 0.6)).

(** Step 4: sum of the consecutive-sample distances. *)
Definition pathLength (stroke : list Point) : R :=
  sum (map (fun pq => distance (fst pq) (snd pq)) (segments stroke)).

(** Step 5. *)
Definition coverageRatio (radius : R) (stroke : list Point) : R :=
  Rmin (pathLength stroke / (2 * PI * radius * 0.9)) 1.

(** Step 6. *)
Definition coverageScore (radius : R) (stroke : list Point) : R :=
  Math.pow (coverageRatio radius stroke) 0.75.

Definition clamp (lo hi v : R) : R := Rmax lo (Rmin v hi).

(** Steps 1 and 7. *)
Definition score (stroke : list Point) (center : Point) (radius : R) : R :=
  if (length stroke <? 6)%nat then 0
  else
    clamp 0 100
      (Math.round
         ((deviationScore center radius stroke * 0.65
           + coverageScore radius stroke * 0.35) * 100)).

End Spec.

(** ** Strokes used by the examples of the specification *)

(** The point of the reference circle at angle [theta]. *)
Definition onCircle (center : Point) (radius theta : R) : Point :=
  mkPoint (x center + radius * cos theta) (y center + radius * sin theta).

(** [n] samples on the circle, starting at angle [theta0] and stepping by
    [delta]. *)
Definition arcSample (center : Point) (radius theta0 delta : R) (k : nat)
    : Point :=
  onCircle center radius (theta0 + INR k * delta).

Definition arcStroke (center : Point) (radius theta0 delta : R) (n : nat)
    : list Point :=
  map (arcSample center radius theta0 delta) (seq 0 n).

(** [n] samples evenly spaced over a full revolution: angles [2 PI k / n],
    [k = 0 .. n-1]. *)
Definition evenStroke (center : Point) (radius : R) (n : nat) : list Point :=
  arcStroke center radius 0 (2 * PI / INR n) n.

(** The example of section 8: 360 points, one per degree. *)
Definition exampleCenter : Point := mkPoint 160 160.
Definition exampleRadius : R := 121.6.

Definition exampleStroke : list Point :=
  map (fun k =>
         mkPoint (160 + 121.6 * cos (INR k * (PI / 180)))
                 (160 + 121.6 * sin (INR k * (PI / 180))))
      (seq 0 360).

(** The same samples with the revolution closed, the last sample back on
    the first one (step 2 PI / (n - 1)): the chords then add up to more than
    0.9 of the circumference from 6 samples on. *)
Definition closedStroke (center : Point) (radius : R) (n : nat)
    : list Point :=
  arcStroke center radius 0 (2 * PI / INR (n - 1)) n.

(** ** Auxiliary notions for the proofs *)

(** The last recorded sample, as a list of at most one point. *)
Definition lastSample (pre : list Point) : list Point :=
  match pre with
  | [] => []
  | _ :: _ => [last pre origin]
  end.

(** What a handler does to the score state: either nothing, or it records
    the score of the captured stroke. *)
Inductive ScoreUpdate (s s' : AppState) : Prop :=
  | ScoreKept :
      lastScore s' = lastScore s ->
      bestScore s' = bestScore s ->
      hasAttempt s' = hasAttempt s ->
      ScoreUpdate s s'
  | ScoreRecorded (v : R) :
      0 <= v ->
      lastScore s' = Some v ->
      bestScore s' = Rmax (bestScore s) v ->
      hasAttempt s' = true ->
      ScoreUpdate s s'.

(** The invariant behind [bestScore]: it bounds the score on display and is
    never negative. *)
Definition bestCoversLast (s : AppState) : Prop :=
  0 <= bestScore s /\ forall v, lastScore s = Some v -> 0 <= v <= bestScore s.

(** A canvas and two pointer events for the closed examples below. *)
Definition demoCanvas : Canvas :=
  mkCanvas 300 150 300 150 (mkDOMRect 10 20 CANVAS_SIZE) true [].

Definition demoDown : PointerEvent := mkPointerEvent 110 120 1.
Definition demoMove : PointerEvent := mkPointerEvent 130 140 1.

(** ** What the component shows (lines 262-275)

    [None] stands for the placeholder text "--". *)

(** [hasAttempt ? bestScore : "--"]. *)
Definition bestScoreDisplay (s : AppState) : option R :=
  if hasAttempt s then Some (bestScore s) else None.

(** [hasAttempt && lastScore !== null ? lastScore : "--"]. *)
Definition lastScoreDisplay (s : AppState) : option R :=
  if hasAttempt s
  then match lastScore s with Some v => Some v | None => None end
  else None.

(** ** Calls on the 2D rendering context

    The handlers' calls on [contextRef.current], in the order the source
    issues them; property assignments ([strokeStyle], [lineWidth],
    [lineCap], [lineJoin]) are recorded as calls too.  The calls depend on
    the state before the handler runs. *)

Inductive ContextCall : Type :=
  | Save
  | Restore
  | SetTransform (a b c d e f : R)
  | ClearRect (left top width height : R)
  | SetStrokeStyle (style : String.string)
  | SetLineWidth (width : R)
  | SetLineDash (segments : list R)
  | SetLineCap (cap : String.string)
  | SetLineJoin (join : String.string)
  | BeginPath
  | Arc (cx cy radius startAngle endAngle : R)
  | MoveTo (px py : R)
  | LineTo (px py : R)
  | Stroke.

(** [clearCanvas] (lines 29-40). *)
Definition clearCanvasCalls (s : AppState) : list ContextCall :=
  match canvasRef s with
  | None => []
  | Some canvas =>
    if negb (contextRef s) then []
    else [Save; SetTransform 1 0 0 1 0 0;
          ClearRect 0 0 (canvas_width canvas) (canvas_height canvas);
          Restore]
  end.

(** [drawReferenceCircle] (lines 42-61). *)
Definition drawReferenceCircleCalls (s : AppState) : list ContextCall :=
  if negb (contextRef s) then []
  else
    clearCanvasCalls s
    ++ [Save; SetStrokeStyle "rgba(148, 163, 184, 0.6)"%string;
        SetLineWidth 2.5; SetLineDash [10; 12]; BeginPath;
        Arc (x (centerRef s)) (y (centerRef s)) (radiusRef s) 0
            (Math.PI * 2);
        Stroke; Restore].

(** The calls of the canvas effect (lines 84-91); the circle is drawn with
    the refs the effect has just written. *)
Definition initCanvasCalls (windowDevicePixelRatio : R) (s : AppState)
    : list ContextCall :=
  match canvasRef s with
  | None => []
  | Some canvas =>
    if negb (context2d canvas) then []
    else
      let devicePixelRatio := orOne windowDevicePixelRatio in
      [SetTransform devicePixelRatio 0 0 devicePixelRatio 0 0;
       SetLineCap "round"%string; SetLineJoin "round"%string]
      ++ drawReferenceCircleCalls (initCanvas windowDevicePixelRatio s)
  end.

(** The calls of [handlePointerDown] (lines 157-162). *)
Definition handlePointerDownCalls (s : AppState) (event : PointerEvent)
    : list ContextCall :=
  if negb (contextRef s) then []
  else
    match getPointerPosition s event with
    | None => []
    | Some position =>
      drawReferenceCircleCalls s
      ++ [BeginPath; SetStrokeStyle "#2563eb"%string; SetLineWidth 5.5;
          MoveTo (x position) (y position)]
    end.

(** The calls of [handlePointerMove] (lines 189-194).  On an empty buffer
    the handler throws while evaluating the arguments of [moveTo], after
    the first three calls. *)
Definition handlePointerMoveCalls (s : AppState) (event : PointerEvent)
    : list ContextCall :=
  if negb (isDrawingRef s) then []
  else if negb (contextRef s) then []
  else
    match getPointerPosition s event with
    | None => []
    | Some position =>
      match pointsRef s with
      | [] => [BeginPath; SetStrokeStyle "#2563eb"%string; SetLineWidth 5.5]
      | _ :: _ =>
        let previous := last (pointsRef s) origin in
        [BeginPath; SetStrokeStyle "#2563eb"%string; SetLineWidth 5.5;
         MoveTo (x previous) (y previous);
         LineTo (x position) (y position); Stroke]
      end
    end.

(** The terminating handlers make no call on the context. *)
Definition stepCalls (s : AppState) (e : Event) : list ContextCall :=
  match e with
  | CanvasEffect r => initCanvasCalls r s
  | PointerDown ev => handlePointerDownCalls s ev
  | PointerMove ev => handlePointerMoveCalls s ev
  | PointerUp _ | PointerLeave _ | PointerCancel _ => []
  end.

Fixpoint runCalls (s : AppState) (es : list Event) : list ContextCall :=
  match es with
  | [] => []
  | e :: es' => stepCalls s e ++ runCalls (step s e) es'
  end.

(** The line segments a list of calls strokes: each [moveTo] directly
    followed by a [lineTo] and a [stroke]. *)
Fixpoint strokedSegments (calls : list ContextCall)
    : list (Point * Point) :=
  match calls with
  | [] => []
  | MoveTo ax ay :: rest =>
    match rest with
    | LineTo bx byy :: Stroke :: _ =>
      (mkPoint ax ay, mkPoint bx byy) :: strokedSegments rest
    | _ => strokedSegments rest
    end
  | _ :: rest => strokedSegments rest
  end.

(** Depth of the context's state stack after a list of calls; [None] when a
    [restore] finds the stack at the depth the calls started from. *)
Fixpoint saveDepth (calls : list ContextCall) (depth : nat) : option nat :=
  match calls with
  | [] => Some depth
  | Save :: rest => saveDepth rest (S depth)
  | Restore :: rest =>
    match depth with
    | O => None
    | S d => saveDepth rest d
    end
  | _ :: rest => saveDepth rest depth
  end.

(** ** Notions used to state further properties *)

(** The logical points of a list of pointer events, in order, under the
    mapping of state [s]. *)
Definition samplesOf (s : AppState) (events : list PointerEvent)
    : list Point :=
  flat_map (fun ev => match getPointerPosition s ev with
                      | Some p => [p]
                      | None => []
                      end) events.

(** The device pixel ratios for which CANVAS_SIZE times the ratio is a
    whole number that the canvas attributes hold as it is. *)
Definition wholeBackingStore (ratio : R) : Prop :=
  exists k : Z, (0 <= k <= 2147483647)%Z /\ CANVAS_SIZE * ratio = IZR k.

(** The canvas of the closed examples once the canvas effect has run with
    device pixel ratio [ratio], holding the captured pointers [captured]. *)
Definition effectCanvas (ratio : R) (captured : list nat) : Canvas :=
  mkCanvas (canvasDimension 300 (CANVAS_SIZE * orOne ratio))
           (canvasDimension 150 (CANVAS_SIZE * orOne ratio))
           CANVAS_SIZE CANVAS_SIZE (mkDOMRect 10 20 CANVAS_SIZE) true
           captured.

(** An integer of the interval [0,100]. *)
Definition isScore (v : R) : Prop :=
  exists k : Z, v = IZR k /\ (0 <= k <= 100)%Z.

(** The refs that fix the pointer mapping and the reference circle. *)
Definition geometryOk (s : AppState) : Prop :=
  dprRef s <> 0
  /\ centerRef s = mkPoint (CANVAS_SIZE / 2) (CANVAS_SIZE / 2)
  /\ radiusRef s = CANVAS_SIZE * 0.38
  /\ (contextRef s = true ->
      exists canvas,
        canvasRef s = Some canvas
        /\ context2d canvas = true
        /\ canvas_width canvas
           = canvasDimension 300 (CANVAS_SIZE * dprRef s)
        /\ canvas_height canvas
           = canvasDimension 150 (CANVAS_SIZE * dprRef s)).

(** The drawing flag is set exactly while the buffer holds samples. *)
Definition bufferMatchesFlag (s : AppState) : Prop :=
  isDrawingRef s = true <-> pointsRef s <> [].

(** The scores held by the state are integers of [0,100], the last one is
    at most the best one, and there is a last score exactly when an attempt
    was made. *)
Definition scoresOk (s : AppState) : Prop :=
  isScore (bestScore s)
  /\ (forall v, lastScore s = Some v -> isScore v /\ v <= bestScore s)
  /\ (hasAttempt s = true <-> lastScore s <> None).

(** Everything of the canvas but its captured pointers, and the refs that
    the pointer handlers only read. *)
Definition canvasGeometry (canvas : Canvas)
    : R * R * R * R * DOMRect * bool :=
  (canvas_width canvas, canvas_height canvas, style_width canvas,
   style_height canvas, boundingClientRect canvas, context2d canvas).

Definition geometryOf (s : AppState)
    : option (R * R * R * R * DOMRect * bool) * bool * R * Point * R :=
  (option_map canvasGeometry (canvasRef s), contextRef s, dprRef s,
   centerRef s, radiusRef s).

(** The score state. *)
Definition scoresOf (s : AppState) : option R * R * bool :=
  (lastScore s, bestScore s, hasAttempt s).

(** * Properties *)

(** ** Rounding and powers *)

Lemma round_IZR (z : Z) : Math.round (IZR z) = IZR z.
Proof.
  unfold Math.round. f_equal.
  symmetry. apply Int_part_spec. lra.
Qed.

Lemma round_bounds (a : R) : a - / 2 < Math.round a <= a + / 2.
Proof.
  unfold Math.round.
  destruct (base_Int_part (a + / 2)) as [H1 H2]. lra.
Qed.

Lemma round_between (a : R) (z : Z) :
  IZR z - / 2 <= a < IZR z + / 2 -> Math.round a = IZR z.
Proof.
  intros [H1 H2]. unfold Math.round. f_equal.
  symmetry. apply Int_part_spec. lra.
Qed.

Lemma pow_0 (b : R) : Math.pow 0 b = 0.
Proof.
  unfold Math.pow. destruct (Req_dec_T 0 0); [reflexivity | contradiction].
Qed.

Lemma pow_1 (b : R) : Math.pow 1 b = 1.
Proof.
  unfold Math.pow. destruct (Req_dec_T 1 0); [lra | ].
  unfold Rpower. rewrite ln_1, Rmult_0_r. apply exp_0.
Qed.

(** ** The loop of [scoreDrawing] computes the two sums *)

Lemma hypot_distance (p q : Point) :
  Math.hypot (x p - x q) (y p - y q) = Spec.distance p q.
Proof.
  unfold Math.hypot, Spec.distance. f_equal. ring.
Qed.

Lemma distance_sym (p q : Point) : Spec.distance p q = Spec.distance q p.
Proof.
  unfold Spec.distance. f_equal. ring.
Qed.

Lemma distance_nonneg (p q : Point) : 0 <= Spec.distance p q.
Proof.
  unfold Spec.distance. apply sqrt_pos.
Qed.

Lemma lastSample_snoc (pre : list Point) (p : Point) :
  lastSample (pre ++ [p]) = [p].
Proof.
  unfold lastSample. destruct (pre ++ [p]) eqn:E.
  - destruct pre; discriminate.
  - rewrite <- E. rewrite last_last. reflexivity.
Qed.

Lemma at_index_middle (pre rest : list Point) (p : Point) :
  at_index (pre ++ p :: rest) (length pre) = p.
Proof.
  unfold at_index. rewrite app_nth2 by lia.
  rewrite Nat.sub_diag. reflexivity.
Qed.

Lemma at_index_before (pre rest : list Point) :
  pre <> [] ->
  at_index (pre ++ rest) (length pre - 1) = last pre origin.
Proof.
  intros Hne. unfold at_index.
  destruct (exists_last Hne) as [pre' [q ->]].
  rewrite last_last, length_app. simpl.
  replace (length pre' + 1 - 1)%nat with (length pre') by lia.
  rewrite <- app_assoc. simpl.
  rewrite app_nth2 by lia. rewrite Nat.sub_diag. reflexivity.
Qed.

Lemma pathLength_cons2 (p q : Point) (rest : list Point) :
  Spec.pathLength (p :: q :: rest)
  = Spec.distance p q + Spec.pathLength (q :: rest).
Proof. reflexivity. Qed.

Lemma scoreLoop_from (center : Point) (radius : R) (rest pre : list Point)
    (acc : R * R) :
  fold_left (scoreLoopBody (pre ++ rest) (x center) (y center) radius)
            (seq (length pre) (length rest)) acc
  = (fst acc
     + Spec.sum (map (fun p => Rabs (Spec.distance p center - radius)) rest),
     snd acc + Spec.pathLength (lastSample pre ++ rest)).
Proof.
  revert pre acc. induction rest as [| p rest IH]; intros pre [dev len].
  - simpl. rewrite app_nil_r.
    assert (Hl : Spec.pathLength (lastSample pre) = 0)
      by (destruct pre; reflexivity).
    rewrite Hl. f_equal; ring.
  - cbn [length seq fold_left].
    replace (pre ++ p :: rest) with ((pre ++ [p]) ++ rest)
      by (rewrite <- app_assoc; reflexivity).
    replace (S (length pre)) with (length (pre ++ [p]))
      by (rewrite length_app; simpl; lia).
    rewrite IH. rewrite lastSample_snoc.
    rewrite <- app_assoc. cbn [app].
    unfold scoreLoopBody. rewrite at_index_middle.
    rewrite hypot_distance with (q := center).
    unfold Math.abs, Spec.sum.
    destruct pre as [| p0 pre'].
    + cbn [length Nat.ltb Nat.leb fst snd lastSample app map fold_right].
      f_equal; ring.
    + assert (Hne : p0 :: pre' <> []) by discriminate.
      replace (0 <? length (p0 :: pre'))%nat with true
        by (symmetry; apply Nat.ltb_lt; simpl; lia).
      rewrite (at_index_before (p0 :: pre') (p :: rest) Hne).
      rewrite hypot_distance.
      cbn [fst snd map fold_right].
      change (lastSample (p0 :: pre')) with [last (p0 :: pre') origin].
      cbn [app]. rewrite pathLength_cons2.
      rewrite (distance_sym p (last (p0 :: pre') origin)). f_equal; ring.
Qed.

Lemma scoreLoop_sums (center : Point) (radius : R) (points : list Point) :
  scoreLoop points (x center) (y center) radius
  = (Spec.sum (map (fun p => Rabs (Spec.distance p center - radius)) points),
     Spec.pathLength points).
Proof.
  unfold scoreLoop.
  pose proof (scoreLoop_from center radius points [] (0, 0)) as H.
  cbn [length app lastSample fst snd] in H. rewrite H.
  f_equal; ring.
Qed.

(** The local constants of [scoreDrawing] are the terms of the
    specification. *)
Lemma scoreTerms_spec (center : Point) (radius : R) (points : list Point) :
  scoreTerms center radius points
  = mkScoreTerms
      (Spec.avgDeviation center radius points)
      (Spec.deviationScore center radius points)
      (Spec.coverageRatio radius points)
      (Spec.coverageScore radius points)
      (Math.round
         ((Spec.deviationScore center radius points * 0.65
           + Spec.coverageScore radius points * 0.35) * 100)).
Proof.
  unfold scoreTerms. rewrite scoreLoop_sums. reflexivity.
Qed.

(** In exact real arithmetic [scoreDrawing] returns the reference
    definition written with sums over the stroke: 0 below 6 samples,
    otherwise the rounded weighted sum of the deviation score and the
    coverage score, clamped to [0,100].  The order of the additions does not
    matter there; [scoreDrawing_refines_spec_in_any_arithmetic] below keeps
    it and holds for every arithmetic. *)
Theorem scoreDrawing_refines_spec (stroke : list Point) (center : Point)
    (radius : R) :
  scoreDrawing center radius stroke = Spec.score stroke center radius.
Proof.
  unfold scoreDrawing, Spec.score.
  destruct (length stroke <? 6)%nat; [reflexivity |].
  rewrite scoreTerms_spec. reflexivity.
Qed.

(** ** The loop and the reference definition in any arithmetic *)

Lemma num_at_index_middle (N : Num.Arith) (pre rest : list (Num.Point N))
    (p : Num.Point N) :
  Num.at_index N (pre ++ p :: rest) (length pre) = p.
Proof.
  unfold Num.at_index. rewrite app_nth2 by lia.
  rewrite Nat.sub_diag. reflexivity.
Qed.

Lemma num_at_index_before (N : Num.Arith) (pre rest : list (Num.Point N)) :
  pre <> [] ->
  Num.lastSample N pre = [Num.at_index N (pre ++ rest) (length pre - 1)].
Proof.
  intros Hne. unfold Num.at_index, Num.lastSample.
  destruct (exists_last Hne) as [pre' [q ->]].
  rewrite last_last, length_app. simpl.
  replace (length pre' + 1 - 1)%nat with (length pre') by lia.
  rewrite <- app_assoc. simpl.
  rewrite app_nth2 by lia. rewrite Nat.sub_diag.
  destruct (pre' ++ [q]) eqn:E; [destruct pre'; discriminate |].
  reflexivity.
Qed.

Lemma num_lastSample_snoc (N : Num.Arith) (pre : list (Num.Point N))
    (p : Num.Point N) :
  Num.lastSample N (pre ++ [p]) = [p].
Proof.
  unfold Num.lastSample. destruct (pre ++ [p]) eqn:E.
  - destruct pre; discriminate.
  - rewrite <- E. rewrite last_last. reflexivity.
Qed.

(** The loop, started at sample [length pre] with accumulators [acc], adds
    to them the deviations and the steps of the remaining samples, in
    order. *)
Lemma num_scoreLoop_from (N : Num.Arith) (center : Num.Point N)
    (radius : Num.num N) (rest pre : list (Num.Point N))
    (acc : Num.num N * Num.num N) :
  fold_left
    (Num.scoreLoopBody N (pre ++ rest) (Num.x center) (Num.y center) radius)
    (seq (length pre) (length rest)) acc
  = (fold_left (Num.add N)
       (map (fun p => Num.abs N (Num.sub N (Num.distance N p center) radius))
            rest)
       (fst acc),
     fold_left (Num.add N) (Num.steps N (Num.lastSample N pre ++ rest))
       (snd acc)).
Proof.
  revert pre acc. induction rest as [| p rest IH]; intros pre [dev len].
  - rewrite !app_nil_r.
    assert (Hl : Num.steps N (Num.lastSample N pre) = [])
      by (destruct pre; reflexivity).
    rewrite Hl. reflexivity.
  - cbn [length seq fold_left].
    assert (Hbody :
      Num.scoreLoopBody N (pre ++ p :: rest) (Num.x center) (Num.y center)
        radius (dev, len) (length pre)
      = (Num.add N dev
           (Num.abs N (Num.sub N (Num.distance N p center) radius)),
         fold_left (Num.add N)
           (Num.steps N (Num.lastSample N pre ++ [p])) len)).
    { unfold Num.scoreLoopBody. rewrite num_at_index_middle.
      destruct pre as [| p0 pre'].
      - reflexivity.
      - assert (Hne : p0 :: pre' <> []) by discriminate.
        replace (0 <? length (p0 :: pre'))%nat with true
          by (symmetry; apply Nat.ltb_lt; simpl; lia).
        rewrite (num_at_index_before N (p0 :: pre') (p :: rest) Hne).
        reflexivity. }
    rewrite Hbody.
    replace (pre ++ p :: rest) with ((pre ++ [p]) ++ rest)
      by (rewrite <- app_assoc; reflexivity).
    replace (S (length pre)) with (length (pre ++ [p]))
      by (rewrite length_app; simpl; lia).
    rewrite IH. rewrite num_lastSample_snoc. cbn [fst snd map fold_left].
    f_equal.
    destruct (Num.lastSample N pre) as [| q l] eqn:El.
    + reflexivity.
    + assert (l = []) by (destruct pre; [discriminate | injection El; auto]).
      subst l. reflexivity.
Qed.

Lemma num_scoreLoop_sums (N : Num.Arith) (center : Num.Point N)
    (radius : Num.num N) (points : list (Num.Point N)) :
  Num.scoreLoop N points (Num.x center) (Num.y center) radius
  = (Num.accumulate N
       (map (fun p => Num.abs N (Num.sub N (Num.distance N p center) radius))
            points),
     Num.pathLength N points).
Proof.
  unfold Num.scoreLoop.
  apply (num_scoreLoop_from N center radius points []).
Qed.

(** C1: for every stroke and reference circle, and in every arithmetic
    (IEEE doubles as well as exact reals), [scoreDrawing] returns the
    reference definition of the specification: 0 below 6 samples, otherwise
    round((deviationScore * 0.65 + coverageScore * 0.35) * 100) clamped to
    [0,100], where deviationScore = max(0, 1 - avgDeviation / (radius * 0.6)),
    avgDeviation is the accumulated |distance to centre - radius| over the
    number of samples, coverageScore = coverageRatio ** 0.75 and
    coverageRatio = min(pathLength / (2 PI radius * 0.9), 1) with pathLength
    the accumulated distance between consecutive samples. *)
Theorem scoreDrawing_refines_spec_in_any_arithmetic (N : Num.Arith)
    (stroke : list (Num.Point N)) (center : Num.Point N)
    (radius : Num.num N) :
  Num.scoreDrawing N center radius stroke
  = Num.specScore N stroke center radius.
Proof.
  unfold Num.scoreDrawing, Num.specScore.
  destruct (length stroke <? 6)%nat; [reflexivity |].
  rewrite num_scoreLoop_sums. reflexivity.
Qed.

(** In the arithmetic of the exact reals the scorer over any arithmetic is
    the [scoreDrawing] of this file. *)
Lemma toReal_at_index (points : list (Num.Point realArith)) (i : nat) :
  toReal (Num.at_index realArith points i)
  = at_index (map toReal points) i.
Proof.
  unfold Num.at_index, at_index.
  replace origin
    with (toReal (Num.mkPoint (Num.decimal realArith 0 0)
                              (Num.decimal realArith 0 0))).
  - symmetry. apply map_nth.
  - unfold toReal, origin. cbn. f_equal; lra.
Qed.

Lemma realArith_scoreLoop (points : list (Num.Point realArith))
    (cx cy radius : R) :
  Num.scoreLoop realArith points cx cy radius
  = scoreLoop (map toReal points) cx cy radius.
Proof.
  assert (H : forall (l : list nat) (acc : R * R),
             fold_left (Num.scoreLoopBody realArith points cx cy radius) l acc
             = fold_left (scoreLoopBody (map toReal points) cx cy radius)
                         l acc).
  { induction l as [| i l IH]; intros acc; [reflexivity |].
    cbn [fold_left]. rewrite IH. f_equal.
    unfold Num.scoreLoopBody, scoreLoopBody. destruct acc as [dev len].
    rewrite <- !toReal_at_index. reflexivity. }
  unfold Num.scoreLoop, scoreLoop. rewrite length_map, H.
  f_equal. cbn. f_equal; lra.
Qed.

Lemma realArith_scoreDrawing (center : Num.Point realArith) (radius : R)
    (points : list (Num.Point realArith)) :
  Num.scoreDrawing realArith center radius points
  = scoreDrawing (toReal center) radius (map toReal points).
Proof.
  unfold Num.scoreDrawing, scoreDrawing, scoreTerms. rewrite length_map.
  destruct (length points <? 6)%nat; [cbn; lra |].
  change (x (toReal center)) with (Num.x center).
  change (y (toReal center)) with (Num.y center).
  rewrite realArith_scoreLoop.
  destruct (scoreLoop (map toReal points) (Num.x center) (Num.y center)
                      radius) as [deviationSum pathLength].
  cbn [finalScore Num.max Num.min Num.round Num.pow Num.mul Num.add Num.sub
       Num.div Num.PI Num.ofLength Num.decimal realArith].
  replace (IZR 0 / 10 ^ 0) with 0 by (simpl; lra).
  replace (IZR 1 / 10 ^ 0) with 1 by (simpl; lra).
  replace (IZR 2 / 10 ^ 0) with 2 by (simpl; lra).
  replace (IZR 100 / 10 ^ 0) with 100 by (simpl; lra).
  replace (IZR 6 / 10 ^ 1) with 0.6 by (simpl; lra).
  replace (IZR 9 / 10 ^ 1) with 0.9 by (simpl; lra).
  replace (IZR 75 / 10 ^ 2) with 0.75 by (simpl; lra).
  replace (IZR 65 / 10 ^ 2) with 0.65 by (simpl; lra).
  replace (IZR 35 / 10 ^ 2) with 0.35 by (simpl; lra).
  reflexivity.
Qed.

(** ** Range of the score *)

Lemma sum_deviation_nonneg (center : Point) (radius : R)
    (points : list Point) :
  0 <= Spec.sum (map (fun p => Rabs (Spec.distance p center - radius)) points).
Proof.
  induction points as [| p points IH]; simpl.
  - lra.
  - pose proof (Rabs_pos (Spec.distance p center - radius)). lra.
Qed.

Lemma pathLength_nonneg (points : list Point) : 0 <= Spec.pathLength points.
Proof.
  induction points as [| p [| q rest] IH]; try (unfold Spec.pathLength; simpl; lra).
  rewrite pathLength_cons2. pose proof (distance_nonneg p q). lra.
Qed.

Lemma avgDeviation_nonneg (center : Point) (radius : R)
    (points : list Point) :
  points <> [] -> 0 <= Spec.avgDeviation center radius points.
Proof.
  intros Hne. unfold Spec.avgDeviation.
  apply Rmult_le_pos; [apply sum_deviation_nonneg |].
  apply Rlt_le, Rinv_0_lt_compat, lt_0_INR.
  destruct points; [contradiction | simpl; lia].
Qed.

Lemma deviationScore_range (center : Point) (radius : R)
    (points : list Point) :
  0 < radius -> points <> [] ->
  0 <= Spec.deviationScore center radius points <= 1.
Proof.
  intros Hr Hne. unfold Spec.deviationScore. split; [apply Rmax_l |].
  apply Rmax_lub; [lra |].
  pose proof (avgDeviation_nonneg center radius points Hne) as Ha.
  assert (0 <= Spec.avgDeviation center radius points / (radius * 0.6)).
  { apply Rmult_le_pos; [assumption |].
    apply Rlt_le, Rinv_0_lt_compat. lra. }
  lra.
Qed.

Lemma coverageRatio_range (radius : R) (points : list Point) :
  0 < radius -> 0 <= Spec.coverageRatio radius points <= 1.
Proof.
  intros Hr. unfold Spec.coverageRatio. split; [| apply Rmin_r].
  apply Rmin_glb; [| lra].
  apply Rmult_le_pos; [apply pathLength_nonneg |].
  apply Rlt_le, Rinv_0_lt_compat.
  pose proof PI_RGT_0. nra.
Qed.

(** Clamping an integer to [0,100] gives an integer of [0,100]. *)
Lemma clamp_integer (k : Z) :
  Math.max 0 (Math.min (IZR k) 100)
  = IZR (Z.max 0 (Z.min k 100)).
Proof.
  unfold Math.max, Math.min.
  destruct (Z_le_gt_dec k 100) as [H1 | H1].
  - rewrite Z.min_l by lia. rewrite Rmin_left by (apply IZR_le; assumption).
    destruct (Z_le_gt_dec 0 k) as [H2 | H2].
    + rewrite Z.max_r by lia. apply Rmax_right. apply IZR_le; assumption.
    + rewrite Z.max_l by lia. apply Rmax_left. apply IZR_le; lia.
  - rewrite Z.min_r by lia. rewrite Rmin_right by (apply IZR_le; lia).
    rewrite Z.max_r by lia. apply Rmax_right. lra.
Qed.

(** C2: for every stroke and every reference circle of positive radius
    [scoreDrawing] returns an integer of the interval [0,100]. *)
Theorem scoreDrawing_integer_in_range (center : Point) (radius : R)
    (stroke : list Point) :
  0 < radius ->
  exists k : Z,
    scoreDrawing center radius stroke = IZR k /\ (0 <= k <= 100)%Z.
Proof.
  intros _. unfold scoreDrawing.
  destruct (length stroke <? 6)%nat.
  - exists 0%Z. split; [reflexivity | lia].
  - rewrite scoreTerms_spec. cbn [finalScore]. unfold Math.round.
    rewrite clamp_integer. eexists. split; [reflexivity | lia].
Qed.

Lemma scoreDrawing_integer_in_range_witness :
  exists k : Z,
    scoreDrawing exampleCenter exampleRadius
      [mkPoint 40 160; mkPoint 100 60; mkPoint 220 60; mkPoint 280 160;
       mkPoint 220 260; mkPoint 100 260; mkPoint 40 160]
    = IZR k /\ (0 <= k <= 100)%Z.
Proof.
  apply (scoreDrawing_integer_in_range exampleCenter exampleRadius).
  unfold exampleRadius. lra.
Defined.

Lemma scoreDrawing_nonneg (center : Point) (radius : R)
    (points : list Point) :
  0 <= scoreDrawing center radius points.
Proof.
  unfold scoreDrawing. destruct (length points <? 6)%nat; [lra |].
  apply Rmax_l.
Qed.

(** ** Stationary strokes *)

Lemma distance_same (p : Point) : Spec.distance p p = 0.
Proof.
  unfold Spec.distance.
  replace ((x p - x p) ^ 2 + (y p - y p) ^ 2) with 0 by ring.
  apply sqrt_0.
Qed.

Lemma pathLength_repeat (p : Point) (n : nat) :
  Spec.pathLength (repeat p n) = 0.
Proof.
  induction n as [| [| n] IH]; try reflexivity.
  change (repeat p (S (S n))) with (p :: p :: repeat p n).
  rewrite pathLength_cons2, distance_same.
  change (p :: repeat p n) with (repeat p (S n)). rewrite IH. ring.
Qed.

Lemma coverageScore_repeat (radius : R) (p : Point) (n : nat) :
  0 < radius -> Spec.coverageScore radius (repeat p n) = 0.
Proof.
  intros Hr. unfold Spec.coverageScore, Spec.coverageRatio.
  rewrite pathLength_repeat.
  replace (0 / (2 * PI * radius * 0.9)) with 0 by (unfold Rdiv; ring).
  rewrite Rmin_left by lra. apply pow_0.
Qed.

Lemma sum_deviation_repeat (center : Point) (radius : R) (p : Point)
    (n : nat) :
  Spec.sum (map (fun q => Rabs (Spec.distance q center - radius))
                (repeat p n))
  = INR n * Rabs (Spec.distance p center - radius).
Proof.
  induction n as [| n IH].
  - simpl. ring.
  - rewrite S_INR. cbn [repeat map Spec.sum fold_right].
    unfold Spec.sum in IH. rewrite IH. ring.
Qed.

(** A stationary stroke of at least 6 samples scores the rounded deviation
    term alone. *)
Lemma scoreDrawing_repeat (center : Point) (radius : R) (p : Point)
    (n : nat) :
  0 < radius -> (6 <= n)%nat ->
  scoreDrawing center radius (repeat p n)
  = Math.max 0
      (Math.min
         (Math.round
            ((Spec.deviationScore center radius (repeat p n) * 0.65
              + 0 * 0.35) * 100)) 100).
Proof.
  intros Hr Hn. unfold scoreDrawing. rewrite repeat_length.
  replace (n <? 6)%nat with false by (symmetry; apply Nat.ltb_ge; lia).
  rewrite scoreTerms_spec. cbn [finalScore].
  rewrite coverageScore_repeat by assumption. reflexivity.
Qed.

Lemma deviationScore_repeat_on_circle (center : Point) (radius : R)
    (p : Point) (n : nat) :
  Spec.distance p center = radius ->
  Spec.deviationScore center radius (repeat p n) = 1.
Proof.
  intros Hd. unfold Spec.deviationScore, Spec.avgDeviation.
  rewrite sum_deviation_repeat, Hd.
  replace (radius - radius) with 0 by ring. rewrite Rabs_R0.
  replace (1 - INR n * 0 / INR (length (repeat p n)) / (radius * 0.6))
    with 1 by (unfold Rdiv; ring).
  apply Rmax_right. lra.
Qed.

(** Six identical samples placed on the reference circle score 65. *)
Lemma scoreDrawing_stationary_on_circle :
  scoreDrawing exampleCenter exampleRadius (repeat (mkPoint 281.6 160) 6)
  = 65.
Proof.
  assert (Hr : 0 < exampleRadius) by (unfold exampleRadius; lra).
  rewrite scoreDrawing_repeat by (assumption || lia).
  rewrite deviationScore_repeat_on_circle.
  - replace ((1 * 0.65 + 0 * 0.35) * 100) with (IZR 65) by lra.
    rewrite round_IZR. unfold Math.max, Math.min.
    rewrite Rmin_left by lra. apply Rmax_right. lra.
  - unfold Spec.distance, exampleCenter, exampleRadius. cbn [x y].
    replace ((281.6 - 160) ^ 2 + (160 - 160) ^ 2) with (121.6 * 121.6)
      by lra.
    apply sqrt_square. lra.
Qed.

(** C4, as stated, fails: six identical samples on the reference circle
    score 65, which is above 35. *)
Lemma stationary_stroke_above_35 :
  ~ (Forall (eq (mkPoint 281.6 160)) (repeat (mkPoint 281.6 160) 6)
     /\ (6 <= length (repeat (mkPoint 281.6 160) 6))%nat ->
     scoreDrawing exampleCenter exampleRadius (repeat (mkPoint 281.6 160) 6)
     <= 35).
Proof.
  intros H.
  assert (Hle : scoreDrawing exampleCenter exampleRadius
                  (repeat (mkPoint 281.6 160) 6) <= 35).
  { apply H. split.
    - apply Forall_forall. intros q Hq.
      symmetry. apply (repeat_spec _ _ _ Hq).
    - simpl. lia. }
  rewrite scoreDrawing_stationary_on_circle in Hle. lra.
Qed.

(** C4 (amended): a stroke of at least 6 identical samples scores at most
    65, for every reference circle of positive radius. *)
Theorem stationary_stroke_at_most_65 (center : Point) (radius : R)
    (p : Point) (stroke : list Point) :
  0 < radius ->
  Forall (eq p) stroke ->
  (6 <= length stroke)%nat ->
  scoreDrawing center radius stroke <= 65.
Proof.
  intros Hr Hall Hn.
  rewrite (Forall_eq_repeat Hall).
  rewrite scoreDrawing_repeat by assumption.
  set (n := length stroke) in *.
  assert (Hne : repeat p n <> []).
  { destruct n; [lia | discriminate]. }
  pose proof (deviationScore_range center radius _ Hr Hne) as [Hd0 Hd1].
  set (d := Spec.deviationScore center radius (repeat p n)) in *.
  pose proof (round_bounds ((d * 0.65 + 0 * 0.35) * 100)) as [_ Hup].
  unfold Math.round in *.
  set (k := Int_part ((d * 0.65 + 0 * 0.35) * 100 + / 2)) in *.
  assert (Hk : (k < 66)%Z) by (apply lt_IZR; lra).
  assert (Hk' : IZR k <= 65) by (apply IZR_le; lia).
  unfold Math.max, Math.min.
  apply Rmax_lub; [lra |].
  apply Rle_trans with (IZR k); [apply Rmin_l | assumption].
Qed.

Lemma stationary_stroke_at_most_65_witness :
  scoreDrawing exampleCenter exampleRadius (repeat (mkPoint 10 20) 8) <= 65.
Proof.
  apply (stationary_stroke_at_most_65 exampleCenter exampleRadius
           (mkPoint 10 20)).
  - unfold exampleRadius. lra.
  - repeat constructor.
  - simpl. lia.
Defined.

(** ** The score state under the handlers *)

Lemma releaseIfCaptured_refs (s : AppState) (event : PointerEvent) :
  let s' := releaseIfCaptured s event in
  contextRef s' = contextRef s /\ isDrawingRef s' = isDrawingRef s
  /\ pointsRef s' = pointsRef s /\ dprRef s' = dprRef s
  /\ centerRef s' = centerRef s /\ radiusRef s' = radiusRef s
  /\ lastScore s' = lastScore s /\ bestScore s' = bestScore s
  /\ hasAttempt s' = hasAttempt s.
Proof.
  unfold releaseIfCaptured. destruct (canvasRef s) as [c |].
  - destruct (hasPointerCapture c (pointerId event)); cbn; repeat split.
  - cbn; repeat split.
Qed.

Lemma finishDrawing_update (s : AppState) :
  ScoreUpdate s (finishDrawing s).
Proof.
  unfold finishDrawing. destruct (isDrawingRef s); cbn [negb].
  - cbn [withStroke pointsRef centerRef radiusRef canvasRef contextRef
         isDrawingRef dprRef bestScore].
    destruct (length (pointsRef s) =? 0)%nat.
    + apply ScoreKept; reflexivity.
    + apply ScoreRecorded
        with (v := scoreDrawing (centerRef s) (radiusRef s) (pointsRef s));
        try reflexivity.
      apply scoreDrawing_nonneg.
  - apply ScoreKept; reflexivity.
Qed.

Lemma terminate_update (s : AppState) (event : PointerEvent) :
  ScoreUpdate s (finishDrawing (releaseIfCaptured s event)).
Proof.
  destruct (releaseIfCaptured_refs s event)
    as (_ & _ & _ & _ & _ & _ & Hl & Hb & Hh).
  destruct (finishDrawing_update (releaseIfCaptured s event))
    as [H1 H2 H3 | v Hv H1 H2 H3].
  - apply ScoreKept; congruence.
  - apply ScoreRecorded with (v := v); congruence.
Qed.

Lemma step_update (s : AppState) (e : Event) : ScoreUpdate s (step s e).
Proof.
  destruct e as [r | ev | ev | ev | ev | ev]; cbn [step];
    try apply terminate_update.
  - unfold initCanvas. destruct (canvasRef s) as [c |];
      [destruct (negb (context2d c)) |]; apply ScoreKept; reflexivity.
  - unfold handlePointerDown. destruct (negb (contextRef s));
      [| destruct (getPointerPosition s ev)]; apply ScoreKept; reflexivity.
  - unfold handlePointerMove.
    destruct (negb (isDrawingRef s)); [apply ScoreKept; reflexivity |].
    destruct (negb (contextRef s)); [apply ScoreKept; reflexivity |].
    destruct (getPointerPosition s ev); [| apply ScoreKept; reflexivity].
    destruct (pointsRef s); apply ScoreKept; reflexivity.
Qed.

Lemma bestScore_step_le (s : AppState) (e : Event) :
  bestScore s <= bestScore (step s e).
Proof.
  destruct (step_update s e) as [_ H _ | v _ _ H _]; rewrite H.
  - lra.
  - apply Rmax_l.
Qed.

Lemma hasAttempt_step (s : AppState) (e : Event) :
  hasAttempt s = true -> hasAttempt (step s e) = true.
Proof.
  intros Hs. destruct (step_update s e) as [_ _ H | v _ _ _ H]; congruence.
Qed.

Lemma lastScore_step (s : AppState) (e : Event) :
  lastScore s <> None -> lastScore (step s e) <> None.
Proof.
  intros Hs. destruct (step_update s e) as [H _ _ | v _ H _ _]; congruence.
Qed.

Lemma maxScore_nonneg (l : list R) : 0 <= maxScore l.
Proof.
  induction l as [| v l IH]; simpl; [lra |].
  apply Rle_trans with (maxScore l); [assumption | apply Rmax_r].
Qed.

Lemma maxScore_upper (l : list R) (v : R) : In v l -> v <= maxScore l.
Proof.
  induction l as [| w l IH]; simpl; [contradiction |].
  intros [-> | Hin].
  - apply Rmax_l.
  - apply Rle_trans with (maxScore l); [auto | apply Rmax_r].
Qed.

Lemma maxScore_attained (l : list R) :
  Forall (fun v => 0 <= v) l -> l <> [] -> In (maxScore l) l.
Proof.
  induction l as [| w l IH]; intros Hall Hne; [contradiction |].
  inversion Hall as [| ? ? Hw Hl]; subst.
  change (maxScore (w :: l)) with (Rmax w (maxScore l)).
  destruct (Rle_dec (maxScore l) w) as [Hle | Hgt].
  - rewrite Rmax_left by assumption. left; reflexivity.
  - rewrite Rmax_right by lra. right.
    destruct l as [| w' l'].
    + simpl in Hgt. contradiction.
    + apply IH; [assumption | discriminate].
Qed.

Lemma bestCoversLast_step (s : AppState) (e : Event) :
  bestCoversLast s -> bestCoversLast (step s e).
Proof.
  intros [Hb Hl].
  destruct (step_update s e) as [H1 H2 H3 | v Hv H1 H2 H3];
    unfold bestCoversLast; rewrite H1, H2.
  - split; assumption.
  - split.
    + apply Rle_trans with v; [assumption | apply Rmax_r].
    + intros w Hw. injection Hw as <-. split; [assumption | apply Rmax_r].
Qed.

Lemma bestCoversLast_run (es : list Event) (s : AppState) :
  bestCoversLast s -> bestCoversLast (run s es).
Proof.
  revert s. induction es as [| e es IH]; intros s Hs; [assumption |].
  apply IH, bestCoversLast_step, Hs.
Qed.

Lemma lastScores_nonneg (es : list Event) (s : AppState) :
  bestCoversLast s -> Forall (fun v => 0 <= v) (lastScores (trace s es)).
Proof.
  revert s. induction es as [| e es IH]; intros s Hs; [constructor |].
  pose proof (bestCoversLast_step s e Hs) as Hs'.
  cbn [trace lastScores].
  destruct (lastScore (step s e)) as [v |] eqn:E; [| apply IH; assumption].
  constructor; [| apply IH; assumption].
  destruct Hs' as [_ Hl]. apply (Hl v E).
Qed.

Lemma bestScore_run (es : list Event) (s : AppState) :
  bestCoversLast s ->
  bestScore (run s es)
  = Rmax (bestScore s) (maxScore (lastScores (trace s es))).
Proof.
  revert s. induction es as [| e es IH]; intros s Hs.
  - simpl. destruct Hs as [Hb _]. rewrite Rmax_left; [reflexivity | lra].
  - pose proof (bestCoversLast_step s e Hs) as Hs'.
    change (run s (e :: es)) with (run (step s e) es).
    rewrite (IH _ Hs'). cbn [trace lastScores].
    set (M := maxScore (lastScores (trace (step s e) es))).
    destruct Hs as [Hb Hl].
    destruct (step_update s e) as [H1 H2 H3 | v Hv H1 H2 H3]; rewrite H1, H2.
    + destruct (lastScore s) as [w |] eqn:E; [| reflexivity].
      change (maxScore (w :: lastScores (trace (step s e) es)))
        with (Rmax w M).
      destruct (Hl w eq_refl) as [_ Hw].
      rewrite Rmax_assoc. rewrite (Rmax_left (bestScore s) w) by assumption.
      reflexivity.
    + change (maxScore (v :: lastScores (trace (step s e) es)))
        with (Rmax v M).
      symmetry. apply Rmax_assoc.
Qed.

Lemma bestScore_run_le (es : list Event) (s : AppState) :
  bestScore s <= bestScore (run s es).
Proof.
  revert s. induction es as [| e es IH]; intros s; [simpl; lra |].
  apply Rle_trans with (bestScore (step s e));
    [apply bestScore_step_le | apply IH].
Qed.

(** C5: from a state with no score yet and [bestScore = 0], after any
    sequence of events [bestScore] is the maximum of the [lastScore] values
    shown so far (it bounds each of them and, once one exists, is one of
    them), and it never decreases as further events are handled. *)
Theorem bestScore_is_max_of_lastScores (s0 : AppState) (es : list Event) :
  lastScore s0 = None ->
  bestScore s0 = 0 ->
  bestScore (run s0 es) = maxScore (lastScores (trace s0 es))
  /\ (forall v, In v (lastScores (trace s0 es)) -> v <= bestScore (run s0 es))
  /\ (lastScores (trace s0 es) <> [] ->
      In (bestScore (run s0 es)) (lastScores (trace s0 es)))
  /\ (forall es', bestScore (run s0 es) <= bestScore (run s0 (es ++ es'))).
Proof.
  intros Hl Hb.
  assert (Hinv : bestCoversLast s0).
  { split; [lra |]. intros v Hv. congruence. }
  assert (Heq : bestScore (run s0 es) = maxScore (lastScores (trace s0 es))).
  { rewrite (bestScore_run es s0 Hinv), Hb.
    apply Rmax_right, maxScore_nonneg. }
  split; [exact Heq |]. split; [| split].
  - intros v Hv. rewrite Heq. apply maxScore_upper, Hv.
  - intros Hne. rewrite Heq.
    apply maxScore_attained; [apply lastScores_nonneg |]; assumption.
  - intros es'. unfold run. rewrite fold_left_app. apply bestScore_run_le.
Qed.

Lemma bestScore_is_max_of_lastScores_witness :
  let s0 := initCanvas 2 (initialState (Some demoCanvas)) in
  let es := [PointerDown demoDown; PointerMove demoMove; PointerUp demoMove;
             PointerDown demoMove; PointerCancel demoMove] in
  bestScore (run s0 es) = maxScore (lastScores (trace s0 es))
  /\ (forall v, In v (lastScores (trace s0 es)) -> v <= bestScore (run s0 es))
  /\ (lastScores (trace s0 es) <> [] ->
      In (bestScore (run s0 es)) (lastScores (trace s0 es)))
  /\ (forall es', bestScore (run s0 es) <= bestScore (run s0 (es ++ es'))).
Proof.
  intros s0 es.
  apply (bestScore_is_max_of_lastScores s0 es); reflexivity.
Defined.

(** C6: pointer-cancel and pointer-leave handle an event exactly as
    pointer-up does, from every state: the three handlers yield the same
    state (score state, stroke buffer, drawing flag and pointer capture). *)
Theorem terminating_handlers_agree (s : AppState) (event : PointerEvent) :
  handlePointerCancel s event = handlePointerUp s event
  /\ handlePointerLeave s event = handlePointerUp s event
  /\ step s (PointerCancel event) = step s (PointerUp event)
  /\ step s (PointerLeave event) = step s (PointerUp event).
Proof.
  repeat split.
Qed.

(** After a terminating handler the canvas no longer captures the pointer
    of the event. *)
Lemma terminating_releases_capture (s : AppState) (event : PointerEvent)
    (canvas : Canvas) :
  canvasRef (handlePointerUp s event) = Some canvas ->
  hasPointerCapture canvas (pointerId event) = false.
Proof.
  unfold handlePointerUp.
  assert (Hc : canvasRef (finishDrawing (releaseIfCaptured s event))
               = canvasRef (releaseIfCaptured s event)).
  { unfold finishDrawing.
    destruct (negb (isDrawingRef (releaseIfCaptured s event)));
      [reflexivity |].
    cbn [withStroke pointsRef canvasRef].
    destruct (length (pointsRef (releaseIfCaptured s event)) =? 0)%nat;
      reflexivity. }
  rewrite Hc. unfold releaseIfCaptured.
  destruct (canvasRef s) as [c |] eqn:E; [| rewrite E; discriminate].
  destruct (hasPointerCapture c (pointerId event)) eqn:Hcap.
  - cbn [withCanvas canvasRef]. intros [= <-].
    unfold hasPointerCapture, releasePointerCapture, withPointerCapture.
    cbn [pointerCapture].
    destruct (existsb (Nat.eqb (pointerId event))
                (filter (fun j => negb (pointerId event =? j)%nat)
                        (pointerCapture c))) eqn:Hex; [| reflexivity].
    apply existsb_exists in Hex. destruct Hex as [j [Hin Hj]].
    apply filter_In in Hin. destruct Hin as [_ Hn].
    rewrite Hj in Hn. discriminate.
  - rewrite E. intros [= <-]. assumption.
Qed.

(** C7: a terminating event handled while the sample buffer is empty
    records no score: [lastScore], [bestScore] and [hasAttempt] keep their
    values. *)
Theorem empty_buffer_records_nothing (s : AppState) (e : Event) :
  isTerminating e = true ->
  pointsRef s = [] ->
  lastScore (step s e) = lastScore s
  /\ bestScore (step s e) = bestScore s
  /\ hasAttempt (step s e) = hasAttempt s.
Proof.
  intros Ht Hp.
  assert (H : forall ev,
             let s' := finishDrawing (releaseIfCaptured s ev) in
             lastScore s' = lastScore s /\ bestScore s' = bestScore s
             /\ hasAttempt s' = hasAttempt s).
  { intros ev.
    destruct (releaseIfCaptured_refs s ev)
      as (_ & _ & Hpts & _ & _ & _ & Hl & Hb & Hh).
    cbv zeta. unfold finishDrawing.
    destruct (negb (isDrawingRef (releaseIfCaptured s ev)));
      [repeat split; assumption |].
    cbn [withStroke pointsRef]. rewrite Hpts, Hp. cbn.
    repeat split; assumption. }
  destruct e as [r | ev | ev | ev | ev | ev]; try discriminate; apply H.
Qed.

Lemma empty_buffer_records_nothing_witness :
  let s := mkAppState (Some demoCanvas) true true [] 1
                      exampleCenter exampleRadius (Some 40) 70 true in
  lastScore (step s (PointerLeave demoMove)) = lastScore s
  /\ bestScore (step s (PointerLeave demoMove)) = bestScore s
  /\ hasAttempt (step s (PointerLeave demoMove)) = hasAttempt s.
Proof.
  intros s.
  apply (empty_buffer_records_nothing s (PointerLeave demoMove));
    reflexivity.
Defined.

Lemma initialState_bestCoversLast (canvas : option Canvas) :
  bestCoversLast (initialState canvas).
Proof.
  split; [simpl; lra |]. intros v Hv. discriminate.
Qed.

Lemma finishDrawing_short (s : AppState) :
  isDrawingRef s = true ->
  (1 <= length (pointsRef s) <= 5)%nat ->
  lastScore (finishDrawing s) = Some 0
  /\ hasAttempt (finishDrawing s) = true
  /\ bestScore (finishDrawing s) = Rmax (bestScore s) 0
  /\ pointsRef (finishDrawing s) = []
  /\ isDrawingRef (finishDrawing s) = false.
Proof.
  intros Hd [Hlo Hhi]. unfold finishDrawing. rewrite Hd. cbn [negb].
  cbn [withStroke pointsRef centerRef radiusRef canvasRef contextRef
       isDrawingRef dprRef bestScore].
  replace (length (pointsRef s) =? 0)%nat with false
    by (symmetry; apply Nat.eqb_neq; lia).
  unfold scoreDrawing, Math.max.
  replace (length (pointsRef s) <? 6)%nat with true
    by (symmetry; apply Nat.ltb_lt; lia).
  cbn [lastScore hasAttempt bestScore pointsRef isDrawingRef].
  repeat split.
Qed.

(** C10: in a state reached from the initial one, a terminating event that
    closes a gesture of 1 to 5 samples records an attempt: [lastScore]
    becomes 0, [hasAttempt] becomes true and [bestScore] keeps its value.
    Under every handler [hasAttempt] stays true once true and [lastScore]
    stays non-null once non-null. *)
Theorem short_gesture_is_an_attempt (canvas : option Canvas)
    (es : list Event) (e : Event) :
  isTerminating e = true ->
  isDrawingRef (run (initialState canvas) es) = true ->
  (1 <= length (pointsRef (run (initialState canvas) es)) <= 5)%nat ->
  (lastScore (step (run (initialState canvas) es) e) = Some 0
   /\ hasAttempt (step (run (initialState canvas) es) e) = true
   /\ bestScore (step (run (initialState canvas) es) e)
      = bestScore (run (initialState canvas) es))
  /\ (forall s1 e1, hasAttempt s1 = true -> hasAttempt (step s1 e1) = true)
  /\ (forall s1 e1, lastScore s1 <> None -> lastScore (step s1 e1) <> None).
Proof.
  intros Ht Hd Hlen.
  set (s := run (initialState canvas) es) in *.
  split; [| split; [exact hasAttempt_step | exact lastScore_step]].
  destruct (bestCoversLast_run es _ (initialState_bestCoversLast canvas))
    as [Hb _].
  fold s in Hb.
  assert (H : forall ev,
             let s' := finishDrawing (releaseIfCaptured s ev) in
             lastScore s' = Some 0 /\ hasAttempt s' = true
             /\ bestScore s' = bestScore s).
  { intros ev.
    destruct (releaseIfCaptured_refs s ev)
      as (_ & Hdr & Hpts & _ & _ & _ & _ & Hbs & _).
    cbv zeta in Hdr, Hpts, Hbs.
    destruct (finishDrawing_short (releaseIfCaptured s ev))
      as (H1 & H2 & H3 & _); [congruence | rewrite Hpts; assumption |].
    cbv zeta. repeat split; try assumption.
    rewrite H3, Hbs. apply Rmax_left. assumption. }
  destruct e as [r | ev | ev | ev | ev | ev]; try discriminate; apply H.
Qed.

Lemma short_gesture_is_an_attempt_witness :
  let es := [CanvasEffect 2; PointerDown demoDown; PointerMove demoMove] in
  let s := run (initialState (Some demoCanvas)) es in
  (lastScore (step s (PointerUp demoMove)) = Some 0
   /\ hasAttempt (step s (PointerUp demoMove)) = true
   /\ bestScore (step s (PointerUp demoMove)) = bestScore s)
  /\ (forall s1 e1, hasAttempt s1 = true -> hasAttempt (step s1 e1) = true)
  /\ (forall s1 e1, lastScore s1 <> None -> lastScore (step s1 e1) <> None).
Proof.
  intros es s.
  apply (short_gesture_is_an_attempt (Some demoCanvas) es
           (PointerUp demoMove)).
  - reflexivity.
  - reflexivity.
  - simpl. lia.
Defined.

(** ** Pointer mapping *)

Lemma orOne_nonzero (r : R) : orOne r <> 0.
Proof.
  unfold orOne. destruct (Req_dec_T r 0); [lra | assumption].
Qed.

Lemma orOne_nonzero_eq (r : R) : r <> 0 -> orOne r = r.
Proof.
  intros H. unfold orOne. destruct (Req_dec_T r 0); [contradiction |].
  reflexivity.
Qed.

(** A product between an integer of the attribute's range and the next one
    is stored as that integer. *)
Lemma canvasDimension_floor (default k : Z) (v : R) :
  (0 <= k <= 2147483647)%Z ->
  IZR k <= v < IZR k + 1 ->
  canvasDimension default v = IZR k.
Proof.
  intros Hk [Hlo Hhi]. unfold canvasDimension, truncate.
  assert (H0 : 0 <= IZR k) by (apply IZR_le; lia).
  destruct (Rle_dec 0 v) as [_ | Hneg]; [| lra].
  assert (Hint : Int_part v = k).
  { symmetry. apply Int_part_spec. lra. }
  rewrite Hint. cbv zeta. rewrite Z.mod_small by lia.
  replace (k <=? 2147483647)%Z with true
    by (symmetry; apply Z.leb_le; lia).
  reflexivity.
Qed.

Lemma wholeBackingStore_orOne (ratio : R) :
  wholeBackingStore ratio -> wholeBackingStore (orOne ratio).
Proof.
  intros H. unfold orOne. destruct (Req_dec_T ratio 0); [| assumption].
  exists 320%Z. split; [lia | unfold CANVAS_SIZE; lra].
Qed.

Lemma canvasDimension_whole (default : Z) (ratio : R) :
  wholeBackingStore ratio ->
  canvasDimension default (CANVAS_SIZE * ratio) = CANVAS_SIZE * ratio.
Proof.
  intros (k & Hk & Hp). rewrite Hp.
  apply canvasDimension_floor; [assumption | lra].
Qed.

Lemma getPointerPosition_after_init (s : AppState) (canvas : Canvas)
    (ratio : R) (event : PointerEvent) :
  canvasRef s = Some canvas ->
  context2d canvas = true ->
  rect_width (boundingClientRect canvas) = CANVAS_SIZE ->
  wholeBackingStore ratio ->
  getPointerPosition (initCanvas ratio s) event
  = Some (mkPoint (clientX event - rect_left (boundingClientRect canvas))
                  (clientY event - rect_top (boundingClientRect canvas))).
Proof.
  intros Hc Hctx Hw Hwhole. unfold initCanvas. rewrite Hc, Hctx. cbn [negb].
  unfold getPointerPosition.
  cbn [canvasRef boundingClientRect canvas_width dprRef].
  rewrite Hw. pose proof (orOne_nonzero ratio) as Hnz.
  rewrite (canvasDimension_whole 300 (orOne ratio))
    by (apply wholeBackingStore_orOne; assumption).
  set (d := orOne ratio) in *.
  assert (Hone : CANVAS_SIZE * d / CANVAS_SIZE / d = 1).
  { unfold CANVAS_SIZE. field. assumption. }
  rewrite Hone. f_equal. f_equal; ring.
Qed.

(** At device pixel ratio 0.6666666865348816 the effect stores the width
    213, the integer part of 213.33..., and the pointer at client position
    (110,120), 100 pixels right of and below the corner of the element, is
    mapped to a point whose coordinates are 100 * (213 / 320) / ratio, about
    99.84. *)
Lemma getPointerPosition_at_fractional_ratio :
  getPointerPosition
    (initCanvas 0.6666666865348816 (initialState (Some demoCanvas))) demoDown
  = Some (mkPoint ((110 - 10) * (213 / 320 / 0.6666666865348816))
                  ((120 - 20) * (213 / 320 / 0.6666666865348816))).
Proof.
  unfold initCanvas, getPointerPosition, initialState, demoCanvas, demoDown.
  cbn [canvasRef context2d negb boundingClientRect canvas_width dprRef
       rect_left rect_top rect_width clientX clientY].
  rewrite orOne_nonzero_eq by lra.
  rewrite (canvasDimension_floor 300 213).
  - unfold CANVAS_SIZE. reflexivity.
  - lia.
  - unfold CANVAS_SIZE. split; lra.
Qed.

(** C9, as stated, fails: with the element laid out at CANVAS_SIZE pixels,
    the pointer at (110,120) is mapped to (100,100) under device pixel
    ratio 1 and to another point under ratio 0.6666666865348816, for which
    the backing store is 213 pixels wide, not 213.33. *)
Lemma pointer_mapping_depends_on_ratio :
  ~ (rect_width (boundingClientRect demoCanvas) = CANVAS_SIZE ->
     getPointerPosition (initCanvas 1 (initialState (Some demoCanvas)))
                        demoDown
     = getPointerPosition
         (initCanvas 0.6666666865348816 (initialState (Some demoCanvas)))
         demoDown).
Proof.
  intros H. specialize (H eq_refl).
  rewrite getPointerPosition_at_fractional_ratio in H.
  rewrite (getPointerPosition_after_init _ demoCanvas) in H;
    try reflexivity.
  - injection H as Hx _. cbn in Hx.
    assert (Hq : 213 / 320 / 0.6666666865348816 < 1).
    { apply Rmult_lt_reg_r with 0.6666666865348816; [lra |].
      unfold Rdiv at 1. rewrite Rmult_assoc, Rinv_l by lra. lra. }
    lra.
  - exists 320%Z. split; [lia | unfold CANVAS_SIZE; lra].
Qed.

(** C9 (amended): with the element laid out at [CANVAS_SIZE] logical
    pixels, the canvas effect run with any two device pixel ratios for
    which CANVAS_SIZE times the ratio is a whole number (so that the backing
    store is exactly that size) leaves [getPointerPosition] mapping every
    pointer event to the same logical point, namely the client position
    relative to the element. *)
Theorem pointer_mapping_ratio_independent (s : AppState) (canvas : Canvas)
    (ratio1 ratio2 : R) (event : PointerEvent) :
  canvasRef s = Some canvas ->
  rect_width (boundingClientRect canvas) = CANVAS_SIZE ->
  wholeBackingStore ratio1 ->
  wholeBackingStore ratio2 ->
  getPointerPosition (initCanvas ratio1 s) event
  = getPointerPosition (initCanvas ratio2 s) event
  /\ (context2d canvas = true ->
      getPointerPosition (initCanvas ratio1 s) event
      = Some (mkPoint
                (clientX event - rect_left (boundingClientRect canvas))
                (clientY event - rect_top (boundingClientRect canvas)))).
Proof.
  intros Hc Hw H1 H2.
  destruct (context2d canvas) eqn:Hctx.
  - rewrite !(getPointerPosition_after_init s canvas) by assumption.
    split; reflexivity.
  - split; [| discriminate].
    unfold initCanvas. rewrite Hc, Hctx. reflexivity.
Qed.

Lemma pointer_mapping_ratio_independent_witness :
  let s := initialState (Some demoCanvas) in
  getPointerPosition (initCanvas 1.5 s) demoDown
  = getPointerPosition (initCanvas 2.625 s) demoDown
  /\ (context2d demoCanvas = true ->
      getPointerPosition (initCanvas 1.5 s) demoDown
      = Some (mkPoint
                (clientX demoDown - rect_left (boundingClientRect demoCanvas))
                (clientY demoDown - rect_top (boundingClientRect demoCanvas)))).
Proof.
  intros s.
  apply (pointer_mapping_ratio_independent s demoCanvas 1.5 2.625 demoDown).
  - reflexivity.
  - reflexivity.
  - exists 480%Z. split; [lia | unfold CANVAS_SIZE; lra].
  - exists 840%Z. split; [lia | unfold CANVAS_SIZE; lra].
Defined.

(** ** Strokes on the reference circle *)

Lemma PI_upper : PI <= 3.1421.
Proof.
  pose proof (PI_2_3_7_ineq 1) as [_ H].
  unfold sum_f_R0, tg_alt, PI_2_3_7_tg, Ratan_seq in H.
  simpl in H. lra.
Qed.

Lemma PI_lower : 3.135 <= PI.
Proof.
  pose proof (PI_2_3_7_ineq 0) as [H _].
  unfold sum_f_R0, tg_alt, PI_2_3_7_tg, Ratan_seq in H.
  simpl in H. lra.
Qed.

(** The cubic lower bound of the sine on [0,1]. *)
Lemma sin_lower (a : R) : 0 <= a <= 1 -> a - a ^ 3 / 6 <= sin a.
Proof.
  intros [H0 H1].
  assert (HPI : a <= PI) by (pose proof PI_lower; lra).
  destruct (SIN a H0 HPI) as [Hlb _].
  unfold sin_lb, sin_approx, sum_f_R0, sin_term in Hlb.
  replace (INR (Factorial.fact (2 * 0 + 1))) with 1 in Hlb by (simpl; lra).
  replace (INR (Factorial.fact (2 * 1 + 1))) with 6 in Hlb by (simpl; lra).
  replace (INR (Factorial.fact (2 * 2 + 1))) with 120 in Hlb
    by (rewrite INR_IZR_INZ; reflexivity).
  replace (INR (Factorial.fact (2 * 3 + 1))) with 5040 in Hlb
    by (rewrite INR_IZR_INZ; reflexivity).
  simpl in Hlb.
  assert (0 <= a ^ 5 / 120 - a ^ 7 / 5040).
  { assert (0 <= a ^ 5) by (apply pow_le; assumption).
    replace (a ^ 7) with (a ^ 5 * (a * a)) by ring.
    assert (a * a <= 1) by nra. nra. }
  simpl in *. lra.
Qed.

Lemma distance_onCircle_center (center : Point) (radius theta : R) :
  0 <= radius ->
  Spec.distance (onCircle center radius theta) center = radius.
Proof.
  intros Hr. unfold Spec.distance, onCircle. cbn [x y].
  replace ((x center + radius * cos theta - x center) ^ 2
           + (y center + radius * sin theta - y center) ^ 2)
    with (radius * radius * ((sin theta)² + (cos theta)²))
    by (unfold Rsqr; ring).
  rewrite sin2_cos2, Rmult_1_r. apply sqrt_square. assumption.
Qed.

(** Two points of the circle [delta] apart in angle are a chord
    [2 radius sin(delta/2)] apart. *)
Lemma distance_onCircle_chord (center : Point) (radius theta delta : R) :
  0 <= radius -> 0 <= sin (delta / 2) ->
  Spec.distance (onCircle center radius theta)
                (onCircle center radius (theta + delta))
  = 2 * radius * sin (delta / 2).
Proof.
  intros Hr Hs. unfold Spec.distance, onCircle. cbn [x y].
  set (b := theta + delta). set (a := theta).
  assert (Hc : cos b * cos a + sin b * sin a
               = 1 - 2 * sin (delta / 2) * sin (delta / 2)).
  { rewrite <- cos_minus, <- cos_2a_sin. f_equal. unfold a, b. field. }
  pose proof (sin2_cos2 a) as Ha. pose proof (sin2_cos2 b) as Hb.
  unfold Rsqr in Ha, Hb.
  replace ((x center + radius * cos a - (x center + radius * cos b)) ^ 2
           + (y center + radius * sin a - (y center + radius * sin b)) ^ 2)
    with (radius * radius
          * ((sin a * sin a + cos a * cos a)
             + (sin b * sin b + cos b * cos b)
             - 2 * (cos b * cos a + sin b * sin a)))
    by ring.
  rewrite Ha, Hb, Hc.
  replace (radius * radius
           * (1 + 1 - 2 * (1 - 2 * sin (delta / 2) * sin (delta / 2))))
    with ((2 * radius * sin (delta / 2)) * (2 * radius * sin (delta / 2)))
    by ring.
  apply sqrt_square. apply Rmult_le_pos; [lra | assumption].
Qed.

Section Arc.

Variables (center : Point) (radius theta0 delta : R).
Hypothesis radius_nonneg : 0 <= radius.
Hypothesis half_step_sin : 0 <= sin (delta / 2).

Let sample : nat -> Point := arcSample center radius theta0 delta.

Lemma sum_deviation_arc (a n : nat) :
  Spec.sum (map (fun p => Rabs (Spec.distance p center - radius))
                (map sample (seq a n))) = 0.
Proof.
  revert a. induction n as [| n IH]; intros a; [reflexivity |].
  cbn [seq map Spec.sum fold_right]. unfold Spec.sum in IH. rewrite IH.
  unfold sample, arcSample.
  rewrite distance_onCircle_center by assumption.
  replace (radius - radius) with 0 by ring. rewrite Rabs_R0. ring.
Qed.

Lemma pathLength_arc (n a : nat) :
  Spec.pathLength (map sample (seq a n))
  = INR (n - 1) * (2 * radius * sin (delta / 2)).
Proof.
  revert a. induction n as [| [| n] IH]; intros a.
  - unfold Spec.pathLength. simpl. ring.
  - unfold Spec.pathLength. simpl. ring.
  - change (map sample (seq a (S (S n))))
      with (sample a :: sample (S a) :: map sample (seq (S (S a)) n)).
    rewrite pathLength_cons2.
    change (sample (S a) :: map sample (seq (S (S a)) n))
      with (map sample (seq (S a) (S n))).
    rewrite IH. unfold sample, arcSample.
    replace (theta0 + INR (S a) * delta)
      with ((theta0 + INR a * delta) + delta) by (rewrite S_INR; ring).
    rewrite distance_onCircle_chord by assumption.
    replace (S (S n) - 1)%nat with (S n) by lia.
    replace (S n - 1)%nat with n by lia.
    rewrite (S_INR n). ring.
Qed.

End Arc.

Lemma arcStroke_length (center : Point) (radius theta0 delta : R) (n : nat) :
  length (arcStroke center radius theta0 delta n) = n.
Proof.
  unfold arcStroke. rewrite length_map, length_seq. reflexivity.
Qed.

Lemma deviationScore_arc (center : Point) (radius theta0 delta : R)
    (n : nat) :
  0 < radius ->
  Spec.deviationScore center radius (arcStroke center radius theta0 delta n)
  = 1.
Proof.
  intros Hr. unfold Spec.deviationScore, Spec.avgDeviation, arcStroke.
  rewrite sum_deviation_arc by lra.
  replace (1 - 0 / INR (length (map (arcSample center radius theta0 delta)
                                     (seq 0 n)))
               / (radius * 0.6))
    with 1 by (unfold Rdiv; ring).
  apply Rmax_right. lra.
Qed.

(** The coverage ratio of an arc, before and after the cap. *)
Lemma coverageRatio_arc (center : Point) (radius theta0 delta : R)
    (n : nat) :
  0 < radius -> 0 <= sin (delta / 2) ->
  Spec.coverageRatio radius (arcStroke center radius theta0 delta n)
  = Rmin (INR (n - 1) * sin (delta / 2) / (0.9 * PI)) 1.
Proof.
  intros Hr Hs. unfold Spec.coverageRatio, arcStroke.
  rewrite pathLength_arc by (lra || assumption).
  f_equal. field. pose proof PI_RGT_0. split; lra.
Qed.

(** An arc on the circle whose chords add up to at least 0.9 of the
    circumference scores 100. *)
Lemma arcStroke_full_score (center : Point) (radius theta0 delta : R)
    (n : nat) :
  0 < radius -> 0 <= sin (delta / 2) -> (6 <= n)%nat ->
  0.9 * PI <= INR (n - 1) * sin (delta / 2) ->
  let stroke := arcStroke center radius theta0 delta n in
  deviationScore (scoreTerms center radius stroke) = 1
  /\ coverageRatio (scoreTerms center radius stroke) = 1
  /\ coverageScore (scoreTerms center radius stroke) = 1
  /\ finalScore (scoreTerms center radius stroke) = 100
  /\ scoreDrawing center radius stroke = 100.
Proof.
  intros Hr Hs Hn Hcov stroke.
  assert (Hd : Spec.deviationScore center radius stroke = 1)
    by (apply deviationScore_arc; assumption).
  assert (Hc : Spec.coverageRatio radius stroke = 1).
  { unfold stroke. rewrite coverageRatio_arc by assumption.
    apply Rmin_right. pose proof PI_RGT_0.
    apply Rmult_le_reg_r with (0.9 * PI); [lra |].
    unfold Rdiv. rewrite Rmult_assoc, Rinv_l by lra. lra. }
  assert (Hp : Spec.coverageScore radius stroke = 1).
  { unfold Spec.coverageScore. rewrite Hc. apply pow_1. }
  assert (Hf : Math.round
                 ((Spec.deviationScore center radius stroke * 0.65
                   + Spec.coverageScore radius stroke * 0.35) * 100) = 100).
  { rewrite Hd, Hp.
    replace ((1 * 0.65 + 1 * 0.35) * 100) with (IZR 100) by lra.
    apply round_IZR. }
  unfold scoreDrawing. rewrite scoreTerms_spec.
  cbn [deviationScore coverageRatio coverageScore finalScore].
  assert (Hlen : length stroke = n) by apply arcStroke_length.
  rewrite Hlen.
  replace (n <? 6)%nat with false by (symmetry; apply Nat.ltb_ge; lia).
  rewrite Hf. repeat split; try assumption.
  unfold Math.max, Math.min. rewrite Rmin_left by lra.
  apply Rmax_right. lra.
Qed.

Lemma exampleStroke_arc :
  exampleStroke = arcStroke exampleCenter exampleRadius 0 (PI / 180) 360.
Proof.
  unfold exampleStroke, arcStroke. apply map_ext. intros k.
  unfold arcSample, onCircle, exampleCenter, exampleRadius. cbn [x y].
  rewrite Rplus_0_l. reflexivity.
Qed.

(** The example of section 8 in exact real arithmetic: the reference circle
    of the component has centre (160,160) and radius 121.6, and the stroke
    of 360 points stepping 1 degree on it has deviationScore 1,
    coverageRatio 1, coverageScore 1 and final score 100.  Whether the
    deviation score of the program is exactly 1 depends on the rounding of
    its floating-point operations, which this statement does not cover; the
    final score 100 and the capped coverage ratio do not depend on it. *)
Theorem example_full_circle_scores_100 :
  centerRef (initialState None) = exampleCenter
  /\ radiusRef (initialState None) = exampleRadius
  /\ deviationScore (scoreTerms exampleCenter exampleRadius exampleStroke) = 1
  /\ coverageRatio (scoreTerms exampleCenter exampleRadius exampleStroke) = 1
  /\ coverageScore (scoreTerms exampleCenter exampleRadius exampleStroke) = 1
  /\ finalScore (scoreTerms exampleCenter exampleRadius exampleStroke) = 100
  /\ scoreDrawing exampleCenter exampleRadius exampleStroke = 100.
Proof.
  split; [| split].
  - unfold initialState, exampleCenter, CANVAS_SIZE. cbn [centerRef].
    f_equal; lra.
  - unfold initialState, exampleRadius, CANVAS_SIZE. cbn [radiusRef]. lra.
  - rewrite exampleStroke_arc.
    assert (Hbound : 0 <= PI / 180 / 2 <= 1).
    { pose proof PI_lower. pose proof PI_upper. split; lra. }
    pose proof (sin_lower _ Hbound) as Hsin.
    pose proof PI_lower as Hlo. pose proof PI_upper as Hup.
    set (a := PI / 180 / 2) in *.
    assert (Ha : 0.0087 <= a <= 0.0088) by (unfold a; split; lra).
    assert (Ha3 : a ^ 3 <= 0.0001 * a).
    { replace (a ^ 3) with (a * a * a) by ring. nra. }
    apply arcStroke_full_score.
    + unfold exampleRadius. lra.
    + fold a. lra.
    + lia.
    + fold a. replace (INR (360 - 1)) with 359
        by (rewrite INR_IZR_INZ; reflexivity).
      replace PI with (360 * a) by (unfold a; field). lra.
Qed.

(** ** Evenly spaced samples over a full revolution *)

(** [a ** 0.75] lies between two bounds as soon as the cube of [a] lies
    between their fourth powers. *)
Lemma pow_three_quarters_bounds (a lo hi : R) :
  0 < a -> 0 <= lo -> 0 <= hi ->
  lo ^ 4 <= a ^ 3 -> a ^ 3 <= hi ^ 4 ->
  lo <= Math.pow a 0.75 <= hi.
Proof.
  intros Ha Hlo Hhi H1 H2. unfold Math.pow.
  destruct (Req_dec_T a 0) as [E | _]; [lra |].
  set (c := Rpower a 0.75).
  assert (Hc : 0 < c) by apply exp_pos.
  assert (Hc4 : c ^ 4 = a ^ 3).
  { rewrite <- (Rpower_pow 4 c Hc). unfold c. rewrite Rpower_mult.
    replace (0.75 * INR 4) with (INR 3) by (simpl; lra).
    apply Rpower_pow. assumption. }
  split.
  - destruct (Rle_dec lo c) as [H | H]; [assumption | exfalso].
    assert (Hlt : c < lo) by lra.
    assert (Hsq : c * c < lo * lo) by nra.
    assert (c ^ 4 < lo ^ 4).
    { replace (c ^ 4) with ((c * c) * (c * c)) by ring.
      replace (lo ^ 4) with ((lo * lo) * (lo * lo)) by ring. nra. }
    lra.
  - destruct (Rle_dec c hi) as [H | H]; [assumption | exfalso].
    assert (Hlt : hi < c) by lra.
    assert (Hsq : hi * hi < c * c) by nra.
    assert (0 <= hi * hi) by nra.
    assert (hi ^ 4 < c ^ 4).
    { replace (c ^ 4) with ((c * c) * (c * c)) by ring.
      replace (hi ^ 4) with ((hi * hi) * (hi * hi)) by ring. nra. }
    lra.
Qed.

Lemma evenStroke_half_step (n : nat) :
  (1 <= n)%nat -> 2 * PI / INR n / 2 = PI * / INR n.
Proof.
  intros Hn. field. apply not_0_INR. lia.
Qed.

(** Six samples evenly spaced over a full revolution of the reference
    circle score 97: the five chords add up to five radii, less than 0.9 of
    the circumference. *)
Lemma scoreDrawing_hexagon (center : Point) (radius : R) :
  0 < radius -> scoreDrawing center radius (evenStroke center radius 6) = 97.
Proof.
  intros Hr. unfold evenStroke.
  assert (Hhalf : 2 * PI / INR 6 / 2 = PI / 6) by (simpl; field).
  assert (Hsin : sin (2 * PI / INR 6 / 2) = 1 / 2)
    by (rewrite Hhalf; apply sin_PI6).
  set (stroke := arcStroke center radius 0 (2 * PI / INR 6) 6).
  pose proof PI_lower as Hlo. pose proof PI_upper as Hup.
  assert (Hd : Spec.deviationScore center radius stroke = 1)
    by (apply deviationScore_arc; assumption).
  set (q := 5 * (1 / 2) / (0.9 * PI)).
  assert (Hq : 0.88 <= q <= 0.89).
  { unfold q. split.
    - apply Rmult_le_reg_r with (0.9 * PI); [lra |].
      unfold Rdiv. rewrite Rmult_assoc, Rinv_l by lra. lra.
    - apply Rmult_le_reg_r with (0.9 * PI); [lra |].
      unfold Rdiv. rewrite Rmult_assoc, Rinv_l by lra. lra. }
  assert (Hc : Spec.coverageRatio radius stroke = q).
  { unfold stroke. rewrite coverageRatio_arc by (rewrite ?Hsin; lra).
    rewrite Hsin.
    replace (INR (6 - 1)) with 5 by (rewrite INR_IZR_INZ; reflexivity).
    fold q. apply Rmin_left. lra. }
  assert (Hp : 0.9 <= Spec.coverageScore radius stroke <= 0.92).
  { unfold Spec.coverageScore. rewrite Hc.
    assert (Hq2 : 0.7744 <= q * q <= 0.7921) by nra.
    assert (Hq3 : 0.68 <= q ^ 3 <= 0.71).
    { replace (q ^ 3) with (q * q * q) by ring. nra. }
    apply pow_three_quarters_bounds; lra. }
  assert (Hf : Math.round
                 ((Spec.deviationScore center radius stroke * 0.65
                   + Spec.coverageScore radius stroke * 0.35) * 100) = 97).
  { rewrite Hd. apply round_between. lra. }
  unfold scoreDrawing. rewrite scoreTerms_spec. cbn [finalScore].
  assert (Hlen : length stroke = 6%nat) by apply arcStroke_length.
  rewrite Hlen, Hf. cbn [Nat.ltb Nat.leb].
  unfold Math.max, Math.min. rewrite Rmin_left by lra.
  apply Rmax_right. lra.
Qed.

(** C3, as stated, fails at n = 6: six samples on the reference circle,
    evenly spaced over a full revolution, do not score 100. *)
Lemma hexagon_below_100 :
  ~ ((6 <= 6)%nat ->
     scoreDrawing exampleCenter exampleRadius
       (evenStroke exampleCenter exampleRadius 6) = 100).
Proof.
  intros H. specialize (H (le_n 6)).
  rewrite scoreDrawing_hexagon in H by (unfold exampleRadius; lra).
  lra.
Qed.

(** An arc on the circle whose chords add up to at least 0.9835 of the
    capped length still scores 100: the coverage score stays above 0.986
    and the weighted sum rounds to 100. *)
Lemma arcStroke_rounds_to_100 (center : Point) (radius theta0 delta : R)
    (n : nat) :
  0 < radius -> 0 <= sin (delta / 2) -> (6 <= n)%nat ->
  0.9835 * (0.9 * PI) <= INR (n - 1) * sin (delta / 2) ->
  scoreDrawing center radius (arcStroke center radius theta0 delta n) = 100.
Proof.
  intros Hr Hs Hn Hcov.
  set (stroke := arcStroke center radius theta0 delta n).
  pose proof PI_RGT_0 as Hpi.
  assert (Hd : Spec.deviationScore center radius stroke = 1)
    by (apply deviationScore_arc; assumption).
  assert (Hc : 0.9835 <= Spec.coverageRatio radius stroke <= 1).
  { unfold stroke. rewrite coverageRatio_arc by assumption.
    split; [| apply Rmin_r]. apply Rmin_glb; [| lra].
    apply Rmult_le_reg_r with (0.9 * PI); [lra |].
    unfold Rdiv. rewrite Rmult_assoc, Rinv_l by lra. lra. }
  assert (Hp : 0.986 <= Spec.coverageScore radius stroke <= 1).
  { unfold Spec.coverageScore.
    set (q := Spec.coverageRatio radius stroke) in *.
    assert (Hq2 : 0.9672 <= q * q <= 1) by nra.
    assert (Hq3 : 0.9512 <= q ^ 3 <= 1).
    { replace (q ^ 3) with (q * q * q) by ring. nra. }
    apply pow_three_quarters_bounds; lra. }
  assert (Hf : Math.round
                 ((Spec.deviationScore center radius stroke * 0.65
                   + Spec.coverageScore radius stroke * 0.35) * 100) = 100).
  { rewrite Hd. apply round_between. lra. }
  unfold scoreDrawing. rewrite scoreTerms_spec. cbn [finalScore].
  assert (Hlen : length stroke = n) by apply arcStroke_length.
  rewrite Hlen, Hf.
  replace (n <? 6)%nat with false by (symmetry; apply Nat.ltb_ge; lia).
  unfold Math.max, Math.min. rewrite Rmin_left by lra.
  apply Rmax_right. lra.
Qed.

(** For [n] evenly spaced samples the chords add up to at least
    [k (1 - / n)] times the circumference over 2, where [k] bounds
    [sin a / a] from below at the half step [a = PI / n]. *)
Lemma evenStroke_chords (n : nat) (bound half k : R) :
  bound <= INR n -> 0 < bound ->
  half = / bound -> 0 <= k ->
  PI * half * (PI * half) <= 6 * (1 - k) ->
  PI * half <= 1 ->
  k * PI * (1 - half) <= INR (n - 1) * sin (2 * PI / INR n / 2)
  /\ 0 <= sin (2 * PI / INR n / 2).
Proof.
  intros HN Hb Hhalf Hk Hsq Hone.
  pose proof PI_RGT_0 as Hpi.
  assert (Hn : (1 <= n)%nat).
  { destruct n; [simpl in HN; lra | lia]. }
  set (t := / INR n).
  assert (Ht : 0 < t <= half).
  { unfold t. split.
    - apply Rinv_0_lt_compat. lra.
    - rewrite Hhalf. apply Rinv_le_contravar; lra. }
  assert (HNt : INR n * t = 1) by (unfold t; apply Rinv_r; lra).
  rewrite (evenStroke_half_step n Hn). fold t.
  assert (Hpt : 0 <= PI * t <= PI * half) by (split; nra).
  assert (Ha : 0 <= PI * t <= 1) by lra.
  pose proof (sin_lower _ Ha) as Hsin.
  assert (Ha2 : PI * t * (PI * t) <= 6 * (1 - k)) by nra.
  assert (Ha3 : (PI * t) ^ 3 <= 6 * (1 - k) * (PI * t)).
  { replace ((PI * t) ^ 3) with ((PI * t * (PI * t)) * (PI * t)) by ring.
    apply Rmult_le_compat_r; lra. }
  assert (Hs : k * (PI * t) <= sin (PI * t)) by lra.
  assert (H1n : 1 <= INR n) by (change 1 with (INR 1); apply le_INR; lia).
  split; [| nra].
  rewrite minus_INR by lia. change (INR 1) with 1.
  apply Rle_trans with ((INR n - 1) * (k * (PI * t))).
  - replace ((INR n - 1) * (k * (PI * t)))
      with (k * PI * (INR n * t - t)) by ring.
    rewrite HNt. apply Rmult_le_compat_l; [nra | lra].
  - apply Rmult_le_compat_l; lra.
Qed.

(** C3 (amended): for every n >= 10 and every start angle, a stroke of n
    samples on the reference circle (of positive radius), evenly spaced over
    a full revolution (angles theta0 + 2 PI k / n), scores exactly 100; its
    coverage ratio reaches the cap 1 when n >= 12. *)
Theorem even_stroke_scores_100 (center : Point) (radius theta0 : R)
    (n : nat) :
  0 < radius ->
  (10 <= n)%nat ->
  scoreDrawing center radius
    (arcStroke center radius theta0 (2 * PI / INR n) n) = 100
  /\ ((12 <= n)%nat ->
      coverageRatio
        (scoreTerms center radius
           (arcStroke center radius theta0 (2 * PI / INR n) n)) = 1).
Proof.
  intros Hr Hn.
  pose proof PI_lower as Hlo. pose proof PI_upper as Hup.
  split.
  - assert (HN : 10 <= INR n).
    { replace 10 with (INR 10) by (rewrite INR_IZR_INZ; reflexivity).
      apply le_INR. assumption. }
    destruct (evenStroke_chords n 10 0.1 0.9835) as [Hc Hs];
      try lra; try nra.
    apply arcStroke_rounds_to_100; try assumption; try lia. lra.
  - intros Hn12.
    assert (HN : 12 <= INR n).
    { replace 12 with (INR 12) by (rewrite INR_IZR_INZ; reflexivity).
      apply le_INR. assumption. }
    destruct (evenStroke_chords n 12 (/ 12) 0.988) as [Hc Hs];
      try lra; try nra.
    destruct (arcStroke_full_score center radius theta0 (2 * PI / INR n) n)
      as (_ & H2 & _); try assumption; try lia. lra.
Qed.

Lemma even_stroke_scores_100_witness :
  scoreDrawing exampleCenter exampleRadius
    (arcStroke exampleCenter exampleRadius 0.5 (2 * PI / INR 12) 12) = 100
  /\ ((12 <= 12)%nat ->
      coverageRatio
        (scoreTerms exampleCenter exampleRadius
           (arcStroke exampleCenter exampleRadius 0.5 (2 * PI / INR 12) 12))
      = 1).
Proof.
  apply (even_stroke_scores_100 exampleCenter exampleRadius 0.5 12).
  - unfold exampleRadius. lra.
  - lia.
Defined.

Lemma closed_stroke_scores_100 (center : Point) (radius : R) (n : nat) :
  0 < radius -> (6 <= n)%nat ->
  scoreDrawing center radius (closedStroke center radius n) = 100.
Proof.
  intros Hr Hn. unfold closedStroke.
  pose proof PI_lower as Hlo. pose proof PI_upper as Hup.
  assert (HN : 5 <= INR (n - 1)).
  { replace 5 with (INR 5) by (rewrite INR_IZR_INZ; reflexivity).
    apply le_INR. lia. }
  set (m := INR (n - 1)) in *. set (t := / m).
  assert (Ht : 0 < t <= 0.2).
  { unfold t. split.
    - apply Rinv_0_lt_compat. lra.
    - replace 0.2 with (/ 5) by lra. apply Rinv_le_contravar; lra. }
  assert (Hmt : m * t = 1) by (unfold t; apply Rinv_r; lra).
  assert (Hhalf : 2 * PI / m / 2 = PI * t) by (unfold t; field; lra).
  assert (Hpt : 0 <= PI * t <= 0.63) by (split; nra).
  assert (Ha : 0 <= PI * t <= 1) by lra.
  pose proof (sin_lower _ Ha) as Hsin.
  assert (Ha2 : PI * t * (PI * t) <= 0.4) by nra.
  assert (Ha3 : (PI * t) ^ 3 <= 0.4 * (PI * t)).
  { replace ((PI * t) ^ 3) with ((PI * t * (PI * t)) * (PI * t)) by ring.
    apply Rmult_le_compat_r; lra. }
  assert (Hs : 0.93 * (PI * t) <= sin (PI * t)) by lra.
  destruct (arcStroke_full_score center radius 0 (2 * PI / m) n)
    as (_ & _ & _ & _ & H5); try assumption.
  - rewrite Hhalf. lra.
  - rewrite Hhalf. fold m.
    apply Rle_trans with (m * (0.93 * (PI * t))).
    + replace (m * (0.93 * (PI * t))) with (0.93 * PI * (m * t)) by ring.
      rewrite Hmt. lra.
    + apply Rmult_le_compat_l; lra.
Qed.

(** * Further properties of the scorer *)

Lemma scoreDrawing_unfold (center : Point) (radius : R)
    (points : list Point) :
  (6 <= length points)%nat ->
  scoreDrawing center radius points
  = Rmax 0
      (Rmin
         (Math.round
            ((Spec.deviationScore center radius points * 0.65
              + Spec.coverageScore radius points * 0.35) * 100)) 100).
Proof.
  intros Hn. unfold scoreDrawing.
  replace (length points <? 6)%nat with false
    by (symmetry; apply Nat.ltb_ge; lia).
  rewrite scoreTerms_spec. reflexivity.
Qed.

Lemma coverageScore_range (radius : R) (points : list Point) :
  0 < radius -> 0 <= Spec.coverageScore radius points <= 1.
Proof.
  intros Hr. unfold Spec.coverageScore.
  destruct (coverageRatio_range radius points Hr) as [H0 H1].
  set (q := Spec.coverageRatio radius points) in *.
  destruct (Req_dec_T q 0) as [E | E].
  - rewrite E, pow_0. lra.
  - assert (Hq : 0 < q) by lra.
    assert (Hq2 : 0 <= q * q <= 1) by nra.
    apply pow_three_quarters_bounds; try lra.
    + replace (q ^ 3) with (q * q * q) by ring. nra.
    + replace (q ^ 3) with (q * q * q) by ring. nra.
Qed.

Lemma div_ge_1 (a d : R) : 0 < d -> d <= a -> 1 <= a / d.
Proof.
  intros Hd Ha.
  assert (HS : a = a / d * d) by (field; lra).
  destruct (Rle_dec 1 (a / d)) as [Hq | Hq]; [assumption | exfalso].
  assert (0 < (1 - a / d) * d) by (apply Rmult_lt_0_compat; lra).
  lra.
Qed.

(** Rounding keeps a value between two integers between them. *)
Lemma round_clamped (v : R) (lo hi : Z) :
  IZR lo <= v <= IZR hi -> IZR lo <= Math.round v <= IZR hi.
Proof.
  intros [H1 H2]. destruct (round_bounds v) as [Hl Hu].
  unfold Math.round in *. set (k := Int_part (v + / 2)) in *.
  split; apply IZR_le.
  - assert (lo - 1 < k)%Z; [apply lt_IZR; rewrite minus_IZR; lra | lia].
  - assert (k < hi + 1)%Z; [apply lt_IZR; rewrite plus_IZR; lra | lia].
Qed.

(** X1: For a circle of positive radius and a stroke of at least 6 samples the
    three intermediate scores lie in [0,1] and the rounded weighted sum is
    already in [0,100]: the final clamp returns it unchanged. *)
Theorem score_terms_in_range (center : Point) (radius : R)
    (points : list Point) :
  0 < radius ->
  (6 <= length points)%nat ->
  0 <= deviationScore (scoreTerms center radius points) <= 1
  /\ 0 <= coverageRatio (scoreTerms center radius points) <= 1
  /\ 0 <= coverageScore (scoreTerms center radius points) <= 1
  /\ scoreDrawing center radius points
     = finalScore (scoreTerms center radius points).
Proof.
  intros Hr Hn.
  assert (Hne : points <> []) by (destruct points; [simpl in Hn; lia | discriminate]).
  pose proof (deviationScore_range center radius points Hr Hne) as Hd.
  pose proof (coverageRatio_range radius points Hr) as Hc.
  pose proof (coverageScore_range radius points Hr) as Hp.
  rewrite scoreDrawing_unfold by assumption.
  rewrite scoreTerms_spec.
  cbn [deviationScore coverageRatio coverageScore finalScore].
  repeat split; try tauto.
  set (v := (Spec.deviationScore center radius points * 0.65
             + Spec.coverageScore radius points * 0.35) * 100).
  assert (Hv : IZR 0 <= v <= IZR 100) by (unfold v; split; nra).
  destruct (round_clamped v 0 100 Hv) as [Hlo Hhi].
  rewrite Rmin_left by assumption. apply Rmax_right. assumption.
Qed.

Lemma score_terms_in_range_witness :
  let points := repeat (mkPoint 200 100) 6 in
  0 <= deviationScore (scoreTerms exampleCenter exampleRadius points) <= 1
  /\ 0 <= coverageRatio (scoreTerms exampleCenter exampleRadius points) <= 1
  /\ 0 <= coverageScore (scoreTerms exampleCenter exampleRadius points) <= 1
  /\ scoreDrawing exampleCenter exampleRadius points
     = finalScore (scoreTerms exampleCenter exampleRadius points).
Proof.
  intros points.
  apply (score_terms_in_range exampleCenter exampleRadius points).
  - unfold exampleRadius. lra.
  - simpl. lia.
Defined.


Lemma sum_map_zero (f : Point -> R) (l : list Point) :
  (forall p, In p l -> f p = 0) -> Spec.sum (map f l) = 0.
Proof.
  induction l as [| p l IH]; intros H; [reflexivity |].
  cbn [map Spec.sum fold_right]. unfold Spec.sum in IH.
  rewrite IH by (intros q Hq; apply H; right; assumption).
  rewrite (H p) by (left; reflexivity). ring.
Qed.



(** X3: A stroke of at least 6 samples that all lie on the circle scores at
    least 65, and exactly 100 once the path accumulated by the loop reaches
    0.9 of the circumference. *)
Theorem on_circle_stroke_at_least_65 (center : Point) (radius : R)
    (points : list Point) :
  0 < radius ->
  (6 <= length points)%nat ->
  (forall p, In p points ->
     Math.hypot (x p - x center) (y p - y center) = radius) ->
  deviationScore (scoreTerms center radius points) = 1
  /\ 65 <= scoreDrawing center radius points
  /\ (2 * Math.PI * radius * 0.9
      <= snd (scoreLoop points (x center) (y center) radius) ->
      scoreDrawing center radius points = 100).
Proof.
  intros Hr Hn Hon.
  assert (Hlen : 0 < INR (length points)) by (apply lt_0_INR; lia).
  assert (Hd : Spec.deviationScore center radius points = 1).
  { unfold Spec.deviationScore, Spec.avgDeviation.
    rewrite sum_map_zero.
    - replace (1 - 0 / INR (length points) / (radius * 0.6)) with 1
        by (unfold Rdiv; ring).
      apply Rmax_right. lra.
    - intros p Hp. rewrite <- hypot_distance, (Hon p Hp).
      replace (radius - radius) with 0 by ring. apply Rabs_R0. }
  pose proof (coverageScore_range radius points Hr) as Hp.
  split; [rewrite scoreTerms_spec; exact Hd |].
  rewrite scoreDrawing_unfold by assumption. rewrite Hd. split.
  - set (v := (1 * 0.65 + Spec.coverageScore radius points * 0.35) * 100).
    assert (Hv : IZR 65 <= v <= IZR 100) by (unfold v; split; lra).
    destruct (round_clamped v 65 100 Hv) as [Hlo Hhi].
    rewrite Rmin_left by assumption.
    apply Rle_trans with (Math.round v); [assumption | apply Rmax_r].
  - rewrite scoreLoop_sums. cbn [snd]. unfold Math.PI. intros Hpath.
    assert (Hc : Spec.coverageRatio radius points = 1).
    { unfold Spec.coverageRatio. apply Rmin_right.
      pose proof PI_RGT_0.
      assert (0 < 2 * PI * radius * 0.9) by nra.
      apply div_ge_1; assumption. }
    unfold Spec.coverageScore. rewrite Hc, pow_1.
    replace ((1 * 0.65 + 1 * 0.35) * 100) with (IZR 100) by lra.
    rewrite round_IZR. rewrite Rmin_left by lra. apply Rmax_right. lra.
Qed.

Lemma on_circle_stroke_at_least_65_witness :
  let points := repeat (mkPoint 281.6 160) 6 in
  deviationScore (scoreTerms exampleCenter exampleRadius points) = 1
  /\ 65 <= scoreDrawing exampleCenter exampleRadius points
  /\ (2 * Math.PI * exampleRadius * 0.9
      <= snd (scoreLoop points (x exampleCenter) (y exampleCenter)
                        exampleRadius) ->
      scoreDrawing exampleCenter exampleRadius points = 100).
Proof.
  intros points.
  apply (on_circle_stroke_at_least_65 exampleCenter exampleRadius points).
  - unfold exampleRadius. lra.
  - simpl. lia.
  - intros p Hp. apply repeat_spec in Hp. subst p.
    unfold Math.hypot, exampleCenter, exampleRadius. cbn [x y].
    replace ((281.6 - 160) * (281.6 - 160) + (160 - 160) * (160 - 160))
      with (121.6 * 121.6) by lra.
    apply sqrt_square. lra.
Defined.

(** ** Path length of a stroke extended by one sample *)

Lemma pathLength_snoc2 (l : list Point) (p q : Point) :
  Spec.pathLength (l ++ [p; q])
  = Spec.pathLength (l ++ [p]) + Spec.distance p q.
Proof.
  induction l as [| a [| b l] IH].
  - unfold Spec.pathLength. simpl. ring.
  - cbn [app]. rewrite !pathLength_cons2. unfold Spec.pathLength. simpl. ring.
  - change ((a :: b :: l) ++ [p; q]) with (a :: b :: (l ++ [p; q])).
    change ((a :: b :: l) ++ [p]) with (a :: b :: (l ++ [p])).
    rewrite !pathLength_cons2.
    change (b :: l ++ [p; q]) with ((b :: l) ++ [p; q]).
    change (b :: l ++ [p]) with ((b :: l) ++ [p]).
    rewrite IH. ring.
Qed.

(** * Further properties of the handlers *)

(** ** What the pointer handlers leave alone *)

Lemma setPointerCapture_geometry (canvas : Canvas) (id : nat) :
  canvasGeometry (setPointerCapture canvas id) = canvasGeometry canvas.
Proof.
  unfold setPointerCapture. destruct (hasPointerCapture canvas id);
    reflexivity.
Qed.

Lemma releaseIfCaptured_geometry (s : AppState) (event : PointerEvent) :
  geometryOf (releaseIfCaptured s event) = geometryOf s.
Proof.
  unfold releaseIfCaptured. destruct (canvasRef s) as [c |] eqn:E;
    [| reflexivity].
  destruct (hasPointerCapture c (pointerId event)); [| reflexivity].
  unfold geometryOf. cbn [withCanvas canvasRef contextRef dprRef centerRef
                          radiusRef option_map].
  rewrite E. reflexivity.
Qed.

Lemma finishDrawing_geometry (s : AppState) :
  geometryOf (finishDrawing s) = geometryOf s
  /\ canvasRef (finishDrawing s) = canvasRef s.
Proof.
  unfold finishDrawing. destruct (negb (isDrawingRef s)); [split; reflexivity |].
  cbn [withStroke pointsRef canvasRef].
  destruct (length (pointsRef s) =? 0)%nat; split; reflexivity.
Qed.

Lemma handlePointerDown_geometry (s : AppState) (event : PointerEvent) :
  geometryOf (handlePointerDown s event) = geometryOf s.
Proof.
  unfold handlePointerDown. destruct (negb (contextRef s)); [reflexivity |].
  destruct (getPointerPosition s event); [| reflexivity].
  unfold geometryOf. cbn [withStroke withCanvas canvasRef contextRef dprRef
                          centerRef radiusRef].
  destruct (canvasRef s) as [c |]; [| reflexivity].
  cbn [option_map]. rewrite setPointerCapture_geometry. reflexivity.
Qed.

Lemma handlePointerMove_canvas (s : AppState) (event : PointerEvent) :
  canvasRef (handlePointerMove s event) = canvasRef s
  /\ geometryOf (handlePointerMove s event) = geometryOf s
  /\ scoresOf (handlePointerMove s event) = scoresOf s.
Proof.
  unfold handlePointerMove.
  destruct (negb (isDrawingRef s)); [repeat split |].
  destruct (negb (contextRef s)); [repeat split |].
  destruct (getPointerPosition s event); [| repeat split].
  destruct (pointsRef s); repeat split.
Qed.

(** X7: No pointer handler changes the canvas size or layout, the stored
    context, the device pixel ratio or the reference circle: only the canvas
    effect writes them. *)
Theorem pointer_events_keep_geometry (s : AppState) (e : Event) :
  (forall r, e <> CanvasEffect r) ->
  geometryOf (step s e) = geometryOf s.
Proof.
  intros He.
  assert (Ht : forall ev,
             geometryOf (finishDrawing (releaseIfCaptured s ev))
             = geometryOf s).
  { intros ev.
    destruct (finishDrawing_geometry (releaseIfCaptured s ev)) as [H _].
    rewrite H. apply releaseIfCaptured_geometry. }
  destruct e as [r | ev | ev | ev | ev | ev]; cbn [step].
  - exfalso. apply (He r). reflexivity.
  - apply handlePointerDown_geometry.
  - apply handlePointerMove_canvas.
  - apply Ht.
  - apply Ht.
  - apply Ht.
Qed.

Lemma pointer_events_keep_geometry_witness :
  geometryOf (step (initCanvas 2 (initialState (Some demoCanvas)))
                   (PointerDown demoDown))
  = geometryOf (initCanvas 2 (initialState (Some demoCanvas))).
Proof.
  apply (pointer_events_keep_geometry
           (initCanvas 2 (initialState (Some demoCanvas)))
           (PointerDown demoDown)).
  intros r. discriminate.
Defined.

Lemma getPointerPosition_geometry (s s' : AppState) (event : PointerEvent) :
  geometryOf s = geometryOf s' ->
  getPointerPosition s event = getPointerPosition s' event.
Proof.
  unfold geometryOf, getPointerPosition. intros H.
  injection H as Hc _ Hd _ _.
  destruct (canvasRef s) as [c |], (canvasRef s') as [c' |];
    try discriminate; [| reflexivity].
  cbn [option_map] in Hc. injection Hc as Hw _ _ _ Hr _.
  rewrite Hw, Hr, Hd. reflexivity.
Qed.

Lemma samplesOf_geometry (s s' : AppState) (events : list PointerEvent) :
  geometryOf s = geometryOf s' -> samplesOf s events = samplesOf s' events.
Proof.
  intros H. unfold samplesOf. induction events as [| ev events IH];
    [reflexivity |].
  cbn [flat_map]. rewrite IH.
  rewrite (getPointerPosition_geometry s s' ev H). reflexivity.
Qed.

(** ** A whole gesture *)

Lemma handlePointerDown_starts (s : AppState) (canvas : Canvas)
    (event : PointerEvent) :
  contextRef s = true ->
  canvasRef s = Some canvas ->
  exists position,
    getPointerPosition s event = Some position
    /\ pointsRef (handlePointerDown s event) = [position]
    /\ isDrawingRef (handlePointerDown s event) = true
    /\ canvasRef (handlePointerDown s event)
       = Some (setPointerCapture canvas (pointerId event))
    /\ scoresOf (handlePointerDown s event) = scoresOf s.
Proof.
  intros Hctx Hc.
  assert (Hpos : exists position, getPointerPosition s event = Some position).
  { unfold getPointerPosition. rewrite Hc. eexists. reflexivity. }
  destruct Hpos as [position Hpos]. exists position.
  unfold handlePointerDown. rewrite Hctx, Hpos, Hc. cbn [negb].
  repeat split.
Qed.

Lemma handlePointerMove_appends (s : AppState) (event : PointerEvent) :
  isDrawingRef s = true ->
  contextRef s = true ->
  pointsRef s <> [] ->
  pointsRef (handlePointerMove s event)
  = pointsRef s ++ samplesOf s [event]
  /\ isDrawingRef (handlePointerMove s event) = true
  /\ contextRef (handlePointerMove s event) = true.
Proof.
  intros Hd Hctx Hne. unfold handlePointerMove, samplesOf.
  rewrite Hd, Hctx. cbn [negb flat_map].
  destruct (getPointerPosition s event) as [position |].
  - destruct (pointsRef s) as [| p rest] eqn:E; [contradiction |].
    cbn [withStroke pointsRef isDrawingRef contextRef].
    rewrite app_nil_r. repeat split; assumption.
  - rewrite !app_nil_r. repeat split; assumption.
Qed.

Lemma samplesOf_cons (s : AppState) (ev : PointerEvent)
    (events : list PointerEvent) :
  samplesOf s (ev :: events) = samplesOf s [ev] ++ samplesOf s events.
Proof.
  unfold samplesOf. cbn [flat_map]. rewrite app_nil_r. reflexivity.
Qed.

Lemma moves_append (events : list PointerEvent) (s : AppState) :
  isDrawingRef s = true ->
  contextRef s = true ->
  pointsRef s <> [] ->
  let s' := run s (map PointerMove events) in
  pointsRef s' = pointsRef s ++ samplesOf s events
  /\ isDrawingRef s' = true
  /\ canvasRef s' = canvasRef s
  /\ geometryOf s' = geometryOf s
  /\ scoresOf s' = scoresOf s.
Proof.
  revert s. induction events as [| ev events IH]; intros s Hd Hctx Hne.
  - cbn. rewrite app_nil_r. repeat split; assumption.
  - cbv zeta. cbn [map]. change (run s (PointerMove ev :: map PointerMove events))
      with (run (handlePointerMove s ev) (map PointerMove events)).
    destruct (handlePointerMove_appends s ev Hd Hctx Hne) as (Hp & Hd' & Hc').
    destruct (handlePointerMove_canvas s ev) as (Hcv & Hg & Hs).
    assert (Hne' : pointsRef (handlePointerMove s ev) <> []).
    { rewrite Hp. destruct (pointsRef s); [contradiction | discriminate]. }
    destruct (IH (handlePointerMove s ev) Hd' Hc' Hne')
      as (Ip & Id & Ic & Ig & Is).
    rewrite Ip, Hp, (samplesOf_geometry _ _ events Hg).
    rewrite <- app_assoc.
    rewrite (samplesOf_cons s ev events).
    repeat split; try congruence.
Qed.

Lemma samplesOf_length (s : AppState) (canvas : Canvas)
    (events : list PointerEvent) :
  canvasRef s = Some canvas ->
  length (samplesOf s events) = length events.
Proof.
  intros Hc. unfold samplesOf. induction events as [| ev events IH];
    [reflexivity |].
  cbn [flat_map]. unfold getPointerPosition at 1. rewrite Hc.
  cbn [app length]. rewrite IH. reflexivity.
Qed.

Lemma gesture_state (s : AppState) (canvas : Canvas) (down : PointerEvent)
    (moves : list PointerEvent) :
  contextRef s = true ->
  canvasRef s = Some canvas ->
  let s' := run s (PointerDown down :: map PointerMove moves) in
  pointsRef s' = samplesOf s (down :: moves)
  /\ isDrawingRef s' = true
  /\ geometryOf s' = geometryOf s
  /\ scoresOf s' = scoresOf s
  /\ canvasRef s' = Some (setPointerCapture canvas (pointerId down)).
Proof.
  intros Hctx Hc. cbv zeta.
  change (run s (PointerDown down :: map PointerMove moves))
    with (run (handlePointerDown s down) (map PointerMove moves)).
  destruct (handlePointerDown_starts s canvas down Hctx Hc)
    as (position & Hpos & Hp & Hd & Hcv & Hs).
  pose proof (handlePointerDown_geometry s down) as Hg.
  assert (Hctx' : contextRef (handlePointerDown s down) = true).
  { unfold geometryOf in Hg. injection Hg as _ Hg _ _ _. congruence. }
  assert (Hne : pointsRef (handlePointerDown s down) <> [])
    by (rewrite Hp; discriminate).
  destruct (moves_append moves (handlePointerDown s down) Hd Hctx' Hne)
    as (Ip & Id & Ic & Ig & Is).
  rewrite Ip, Hp, (samplesOf_geometry _ _ moves Hg).
  rewrite (samplesOf_cons s down moves).
  unfold samplesOf at 2. cbn [flat_map]. rewrite Hpos, app_nil_r.
  repeat split; congruence.
Qed.

(** X8: A gesture records one sample per delivered event: after a pointer-down
    and any number of pointer-moves, with a canvas and a context in place,
    the buffer holds the logical points of exactly these events, in order,
    whatever it held before; the score state is untouched. *)
Theorem gesture_records_one_sample_per_event (s : AppState) (canvas : Canvas)
    (down : PointerEvent) (moves : list PointerEvent) :
  contextRef s = true ->
  canvasRef s = Some canvas ->
  pointsRef (run s (PointerDown down :: map PointerMove moves))
  = samplesOf s (down :: moves)
  /\ length (pointsRef (run s (PointerDown down :: map PointerMove moves)))
     = S (length moves)
  /\ isDrawingRef (run s (PointerDown down :: map PointerMove moves)) = true
  /\ scoresOf (run s (PointerDown down :: map PointerMove moves))
     = scoresOf s.
Proof.
  intros Hctx Hc.
  destruct (gesture_state s canvas down moves Hctx Hc)
    as (Hp & Hd & _ & Hs & _).
  repeat split; try assumption.
  rewrite Hp, (samplesOf_length s canvas) by assumption. reflexivity.
Qed.

Lemma gesture_records_one_sample_per_event_witness :
  let s := initCanvas 2 (initialState (Some demoCanvas)) in
  let es := PointerDown demoDown :: map PointerMove [demoMove; demoDown] in
  pointsRef (run s es) = samplesOf s [demoDown; demoMove; demoDown]
  /\ length (pointsRef (run s es)) = 3%nat
  /\ isDrawingRef (run s es) = true
  /\ scoresOf (run s es) = scoresOf s.
Proof.
  intros s es.
  apply (gesture_records_one_sample_per_event s
           (effectCanvas 2 [])
           demoDown [demoMove; demoDown]); reflexivity.
Defined.

Lemma finishDrawing_records (s : AppState) :
  isDrawingRef s = true ->
  pointsRef s <> [] ->
  lastScore (finishDrawing s)
  = Some (scoreDrawing (centerRef s) (radiusRef s) (pointsRef s))
  /\ bestScore (finishDrawing s)
     = Math.max (bestScore s)
                (scoreDrawing (centerRef s) (radiusRef s) (pointsRef s))
  /\ hasAttempt (finishDrawing s) = true
  /\ pointsRef (finishDrawing s) = []
  /\ isDrawingRef (finishDrawing s) = false.
Proof.
  intros Hd Hne. unfold finishDrawing. rewrite Hd. cbn [negb].
  cbn [withStroke pointsRef centerRef radiusRef canvasRef contextRef
       isDrawingRef dprRef bestScore].
  destruct (pointsRef s) as [| p rest]; [contradiction |].
  cbn [length Nat.eqb]. repeat split.
Qed.

(** X9: End to end: a pointer-down, any pointer-moves and one terminating event
    record the score of exactly the samples of these events against the
    stored reference circle, raise [bestScore] to at least that score, and
    leave the buffer empty and the drawing flag off. *)
Theorem gesture_scores_its_samples (s : AppState) (canvas : Canvas)
    (down : PointerEvent) (moves : list PointerEvent) (e : Event) :
  contextRef s = true ->
  canvasRef s = Some canvas ->
  isTerminating e = true ->
  let score :=
    scoreDrawing (centerRef s) (radiusRef s) (samplesOf s (down :: moves)) in
  let s' := run s ((PointerDown down :: map PointerMove moves) ++ [e]) in
  lastScore s' = Some score
  /\ bestScore s' = Math.max (bestScore s) score
  /\ hasAttempt s' = true
  /\ pointsRef s' = []
  /\ isDrawingRef s' = false.
Proof.
  intros Hctx Hc Ht. cbv zeta. unfold run. rewrite fold_left_app.
  fold (run s (PointerDown down :: map PointerMove moves)).
  destruct (gesture_state s canvas down moves Hctx Hc)
    as (Hp & Hd & Hg & Hs & _).
  set (s2 := run s (PointerDown down :: map PointerMove moves)) in *.
  assert (Hcr : centerRef s2 = centerRef s /\ radiusRef s2 = radiusRef s
                /\ bestScore s2 = bestScore s).
  { unfold geometryOf in Hg. unfold scoresOf in Hs.
    injection Hg as _ _ _ H1 H2. injection Hs as _ H3 _. auto. }
  destruct Hcr as (Hce & Hra & Hbe).
  assert (H : forall ev,
             let s3 := finishDrawing (releaseIfCaptured s2 ev) in
             lastScore s3
             = Some (scoreDrawing (centerRef s) (radiusRef s)
                                  (samplesOf s (down :: moves)))
             /\ bestScore s3
                = Math.max (bestScore s)
                    (scoreDrawing (centerRef s) (radiusRef s)
                                  (samplesOf s (down :: moves)))
             /\ hasAttempt s3 = true /\ pointsRef s3 = []
             /\ isDrawingRef s3 = false).
  { intros ev.
    destruct (releaseIfCaptured_refs s2 ev)
      as (_ & Rd & Rp & _ & Rc & Rr & _ & Rb & _).
    cbv zeta in Rd, Rp, Rc, Rr, Rb.
    destruct (finishDrawing_records (releaseIfCaptured s2 ev))
      as (F1 & F2 & F3 & F4 & F5).
    - congruence.
    - rewrite Rp, Hp, samplesOf_cons.
      unfold samplesOf at 1. cbn [flat_map].
      unfold getPointerPosition. rewrite Hc. discriminate.
    - cbv zeta. rewrite F1, F2, Rc, Rr, Rp, Rb, Hce, Hra, Hp, Hbe.
      repeat split; assumption. }
  cbn [fold_left].
  destruct e as [r | ev | ev | ev | ev | ev]; try discriminate; apply H.
Qed.

Lemma gesture_scores_its_samples_witness :
  let s := initCanvas 2 (initialState (Some demoCanvas)) in
  let score :=
    scoreDrawing (centerRef s) (radiusRef s)
                 (samplesOf s [demoDown; demoMove]) in
  let s' := run s ((PointerDown demoDown :: map PointerMove [demoMove])
                   ++ [PointerCancel demoMove]) in
  lastScore s' = Some score
  /\ bestScore s' = Math.max (bestScore s) score
  /\ hasAttempt s' = true
  /\ pointsRef s' = []
  /\ isDrawingRef s' = false.
Proof.
  intros s.
  apply (gesture_scores_its_samples s
           (effectCanvas 2 [])
           demoDown [demoMove] (PointerCancel demoMove)); reflexivity.
Defined.

(** ** Terminating twice, pointer capture, missing canvas *)

Lemma finishDrawing_not_drawing (s : AppState) :
  isDrawingRef (finishDrawing s) = false.
Proof.
  unfold finishDrawing. destruct (isDrawingRef s) eqn:E; cbn [negb];
    [| assumption].
  cbn [withStroke pointsRef].
  destruct (length (pointsRef s) =? 0)%nat; reflexivity.
Qed.

Lemma finishDrawing_idle (s : AppState) :
  isDrawingRef s = false -> finishDrawing s = s.
Proof.
  intros H. unfold finishDrawing. rewrite H. reflexivity.
Qed.

Lemma releaseIfCaptured_not_captured (s : AppState) (event : PointerEvent) :
  (forall canvas, canvasRef s = Some canvas ->
     hasPointerCapture canvas (pointerId event) = false) ->
  releaseIfCaptured s event = s.
Proof.
  intros H. unfold releaseIfCaptured.
  destruct (canvasRef s) as [c |]; [| reflexivity].
  rewrite (H c eq_refl). reflexivity.
Qed.

(** X10: A second terminating event for the same pointer, handled right after a
    first one (a pointer-leave following the pointer-up, say), changes
    nothing: no second score is recorded. *)
Theorem terminating_twice_is_once (s : AppState) (ev1 ev2 : PointerEvent)
    (e1 e2 : Event) :
  In e1 [PointerUp ev1; PointerLeave ev1; PointerCancel ev1] ->
  In e2 [PointerUp ev2; PointerLeave ev2; PointerCancel ev2] ->
  pointerId ev1 = pointerId ev2 ->
  step (step s e1) e2 = step s e1.
Proof.
  intros H1 H2 Hid.
  assert (E1 : step s e1 = handlePointerUp s ev1).
  { cbn [In] in H1. destruct H1 as [<- | [<- | [<- | []]]]; reflexivity. }
  assert (E2 : forall t, step t e2 = handlePointerUp t ev2).
  { intros t. cbn [In] in H2.
    destruct H2 as [<- | [<- | [<- | []]]]; reflexivity. }
  rewrite E2, E1. unfold handlePointerUp at 1.
  rewrite releaseIfCaptured_not_captured.
  - apply finishDrawing_idle. apply finishDrawing_not_drawing.
  - intros canvas Hc. rewrite <- Hid.
    apply (terminating_releases_capture s ev1 canvas Hc).
Qed.

Lemma terminating_twice_is_once_witness :
  let s := run (initialState (Some demoCanvas))
               [CanvasEffect 2; PointerDown demoDown; PointerMove demoMove] in
  step (step s (PointerUp demoMove)) (PointerLeave demoDown)
  = step s (PointerUp demoMove).
Proof.
  intros s.
  apply (terminating_twice_is_once s demoMove demoDown).
  - left. reflexivity.
  - right. left. reflexivity.
  - reflexivity.
Defined.

Lemma hasPointerCapture_set (canvas : Canvas) (id j : nat) :
  hasPointerCapture (setPointerCapture canvas id) j
  = if Nat.eqb j id then true else hasPointerCapture canvas j.
Proof.
  unfold setPointerCapture.
  destruct (hasPointerCapture canvas id) eqn:E.
  - destruct (Nat.eqb j id) eqn:Ej; [| reflexivity].
    apply Nat.eqb_eq in Ej. subst j. assumption.
  - unfold hasPointerCapture, withPointerCapture. cbn [pointerCapture existsb].
    destruct (Nat.eqb j id); reflexivity.
Qed.

Lemma hasPointerCapture_release (canvas : Canvas) (id j : nat) :
  hasPointerCapture (releasePointerCapture canvas id) j
  = if Nat.eqb j id then false else hasPointerCapture canvas j.
Proof.
  unfold hasPointerCapture, releasePointerCapture, withPointerCapture.
  cbn [pointerCapture].
  induction (pointerCapture canvas) as [| a l IH].
  - simpl. destruct (Nat.eqb j id); reflexivity.
  - cbn [filter]. destruct (Nat.eqb id a) eqn:Ea; cbn [negb existsb].
    + apply Nat.eqb_eq in Ea. subst a. rewrite IH.
      destruct (Nat.eqb j id); reflexivity.
    + rewrite IH. destruct (Nat.eqb_spec j id) as [Ej | Ej];
        [| reflexivity].
      rewrite Ej, Ea. reflexivity.
Qed.

(** X11: A pointer-down that starts a gesture makes the canvas capture the
    pointer of the event and changes the capture of no other pointer. *)
Theorem pointer_down_captures (s : AppState) (canvas : Canvas)
    (event : PointerEvent) :
  contextRef s = true ->
  canvasRef s = Some canvas ->
  exists canvas',
    canvasRef (handlePointerDown s event) = Some canvas'
    /\ hasPointerCapture canvas' (pointerId event) = true
    /\ forall j, j <> pointerId event ->
         hasPointerCapture canvas' j = hasPointerCapture canvas j.
Proof.
  intros Hctx Hc.
  destruct (handlePointerDown_starts s canvas event Hctx Hc)
    as (_ & _ & _ & _ & Hcv & _).
  eexists. split; [exact Hcv |]. split.
  - rewrite hasPointerCapture_set, Nat.eqb_refl. reflexivity.
  - intros j Hj. rewrite hasPointerCapture_set.
    replace (Nat.eqb j (pointerId event)) with false
      by (symmetry; apply Nat.eqb_neq; assumption).
    reflexivity.
Qed.

Lemma pointer_down_captures_witness :
  exists canvas',
    canvasRef (handlePointerDown
                 (initCanvas 2 (initialState (Some demoCanvas))) demoDown)
    = Some canvas'
    /\ hasPointerCapture canvas' (pointerId demoDown) = true
    /\ forall j, j <> pointerId demoDown ->
         hasPointerCapture canvas' j
         = hasPointerCapture
             (effectCanvas 2 []) j.
Proof.
  apply (pointer_down_captures
           (initCanvas 2 (initialState (Some demoCanvas)))); reflexivity.
Defined.

(** X12: Each of the three terminating handlers (pointer-up, pointer-leave,
    pointer-cancel) leaves the canvas without capture of the pointer of the
    event and changes the capture of no other pointer. *)
Theorem terminating_releases_only_its_pointer (s : AppState)
    (canvas : Canvas) (event : PointerEvent) (e : Event) :
  canvasRef s = Some canvas ->
  In e [PointerUp event; PointerLeave event; PointerCancel event] ->
  exists canvas',
    canvasRef (step s e) = Some canvas'
    /\ hasPointerCapture canvas' (pointerId event) = false
    /\ forall j, j <> pointerId event ->
         hasPointerCapture canvas' j = hasPointerCapture canvas j.
Proof.
  intros Hc He.
  assert (E : step s e = finishDrawing (releaseIfCaptured s event)).
  { cbn [In] in He. destruct He as [<- | [<- | [<- | []]]]; reflexivity. }
  rewrite E.
  destruct (finishDrawing_geometry (releaseIfCaptured s event)) as [_ Hcv].
  rewrite Hcv. unfold releaseIfCaptured. rewrite Hc.
  destruct (hasPointerCapture canvas (pointerId event)) eqn:Hcap.
  - cbn [withCanvas canvasRef]. eexists. split; [reflexivity |]. split.
    + rewrite hasPointerCapture_release, Nat.eqb_refl. reflexivity.
    + intros j Hj. rewrite hasPointerCapture_release.
      replace (Nat.eqb j (pointerId event)) with false
        by (symmetry; apply Nat.eqb_neq; assumption).
      reflexivity.
  - exists canvas. rewrite Hc. repeat split. assumption.
Qed.

(** The canvas holds the captures of pointers 1 (taken by the pointer-down
    of the run) and 7; the pointer-leave of pointer 1 releases it and keeps
    the capture of pointer 7. *)
Lemma terminating_releases_only_its_pointer_witness :
  let s := run (initialState
                  (Some (mkCanvas 300 150 300 150
                                  (mkDOMRect 10 20 CANVAS_SIZE) true
                                  [7%nat])))
               [CanvasEffect 2; PointerDown demoDown; PointerMove demoMove] in
  hasPointerCapture (effectCanvas 2 [1%nat; 7%nat]) (pointerId demoMove)
  = true
  /\ exists canvas',
       canvasRef (step s (PointerLeave demoMove)) = Some canvas'
       /\ hasPointerCapture canvas' (pointerId demoMove) = false
       /\ forall j, j <> pointerId demoMove ->
            hasPointerCapture canvas' j
            = hasPointerCapture (effectCanvas 2 [1%nat; 7%nat]) j.
Proof.
  intros s. split; [reflexivity |].
  apply (terminating_releases_only_its_pointer s
           (effectCanvas 2 [1%nat; 7%nat]) demoMove (PointerLeave demoMove)).
  - reflexivity.
  - right. left. reflexivity.
Defined.

Lemma inert_step (s : AppState) (e : Event) :
  contextRef s = false ->
  isDrawingRef s = false ->
  match canvasRef s with Some c => context2d c = false | None => True end ->
  contextRef (step s e) = false
  /\ isDrawingRef (step s e) = false
  /\ pointsRef (step s e) = pointsRef s
  /\ scoresOf (step s e) = scoresOf s
  /\ match canvasRef (step s e) with
     | Some c => context2d c = false
     | None => True
     end
  /\ stepCalls s e = [].
Proof.
  intros Hctx Hd Hc.
  assert (Ht : forall ev,
             finishDrawing (releaseIfCaptured s ev) = releaseIfCaptured s ev).
  { intros ev. apply finishDrawing_idle.
    destruct (releaseIfCaptured_refs s ev) as (_ & H & _). congruence. }
  assert (Hr : forall ev,
             contextRef (releaseIfCaptured s ev) = false
             /\ isDrawingRef (releaseIfCaptured s ev) = false
             /\ pointsRef (releaseIfCaptured s ev) = pointsRef s
             /\ scoresOf (releaseIfCaptured s ev) = scoresOf s
             /\ match canvasRef (releaseIfCaptured s ev) with
                | Some c => context2d c = false
                | None => True
                end
             /\ @nil ContextCall = []).
  { intros ev.
    destruct (releaseIfCaptured_refs s ev)
      as (R1 & R2 & R3 & _ & _ & _ & R4 & R5 & R6).
    cbv zeta in *. unfold scoresOf. rewrite R1, R2, R3, R4, R5, R6.
    repeat split; try assumption.
    unfold releaseIfCaptured. destruct (canvasRef s) as [c |] eqn:E.
    - destruct (hasPointerCapture c (pointerId ev)).
      + cbn [withCanvas canvasRef releasePointerCapture withPointerCapture
             context2d]. assumption.
      + rewrite E. assumption.
    - rewrite E. exact I. }
  destruct e as [r | ev | ev | ev | ev | ev]; cbn [step stepCalls];
    unfold handlePointerUp, handlePointerLeave, handlePointerCancel;
    rewrite ?Ht; try apply Hr.
  - unfold initCanvas, initCanvasCalls.
    destruct (canvasRef s) as [c |] eqn:E.
    + rewrite Hc. cbn [negb]. rewrite E. repeat split; assumption.
    + rewrite E. repeat split; assumption.
  - unfold handlePointerDown, handlePointerDownCalls. rewrite Hctx.
    cbn [negb]. repeat split; assumption.
  - unfold handlePointerMove, handlePointerMoveCalls. rewrite Hd.
    cbn [negb]. repeat split; assumption.
Qed.

(** X13: Without a canvas, or with a canvas that yields no 2D context, the
    component is inert: whatever events arrive, no context is stored, no
    sample is recorded, no score is set and no drawing call is made. *)
Theorem no_context_no_effect (canvas : option Canvas) (es : list Event) :
  match canvas with Some c => context2d c = false | None => True end ->
  contextRef (run (initialState canvas) es) = false
  /\ isDrawingRef (run (initialState canvas) es) = false
  /\ pointsRef (run (initialState canvas) es) = []
  /\ scoresOf (run (initialState canvas) es) = (None, 0, false)
  /\ runCalls (initialState canvas) es = [].
Proof.
  intros Hc.
  assert (G : forall es s,
             contextRef s = false -> isDrawingRef s = false ->
             match canvasRef s with
             | Some c => context2d c = false
             | None => True
             end ->
             contextRef (run s es) = false
             /\ isDrawingRef (run s es) = false
             /\ pointsRef (run s es) = pointsRef s
             /\ scoresOf (run s es) = scoresOf s
             /\ runCalls s es = []).
  { clear. induction es as [| e es IH]; intros s H1 H2 H3.
    - repeat split; assumption.
    - destruct (inert_step s e H1 H2 H3) as (S1 & S2 & S3 & S4 & S5 & S6).
      destruct (IH (step s e) S1 S2 S5) as (I1 & I2 & I3 & I4 & I5).
      change (run s (e :: es)) with (run (step s e) es).
      cbn [runCalls]. rewrite S6, I5.
      repeat split; congruence. }
  apply (G es (initialState canvas)); try reflexivity. exact Hc.
Qed.

Lemma no_context_no_effect_witness :
  let canvas := Some (mkCanvas 300 150 300 150 (mkDOMRect 0 0 CANVAS_SIZE)
                               false [7%nat]) in
  let es := [CanvasEffect 2; PointerDown demoDown; PointerMove demoMove;
             PointerUp demoMove] in
  contextRef (run (initialState canvas) es) = false
  /\ isDrawingRef (run (initialState canvas) es) = false
  /\ pointsRef (run (initialState canvas) es) = []
  /\ scoresOf (run (initialState canvas) es) = (None, 0, false)
  /\ runCalls (initialState canvas) es = [].
Proof.
  intros canvas es.
  apply (no_context_no_effect canvas es). reflexivity.
Defined.

(** ** The canvas effect *)

(** X14: Running the canvas effect again replaces what the earlier run wrote:
    only the last device pixel ratio counts.  The effect never touches the
    stroke in progress or the score state. *)
Theorem canvas_effect_last_ratio_wins (s : AppState) (ratio1 ratio2 : R) :
  initCanvas ratio2 (initCanvas ratio1 s) = initCanvas ratio2 s
  /\ pointsRef (initCanvas ratio1 s) = pointsRef s
  /\ isDrawingRef (initCanvas ratio1 s) = isDrawingRef s
  /\ scoresOf (initCanvas ratio1 s) = scoresOf s.
Proof.
  unfold initCanvas. destruct (canvasRef s) as [c |] eqn:E.
  - destruct (context2d c) eqn:Hctx; cbn [negb].
    + cbn [canvasRef context2d negb]. repeat split.
    + rewrite E, Hctx. repeat split.
  - rewrite E. repeat split.
Qed.

(** ** Invariants of the reachable states *)

Lemma geometryOk_transfer (s s' : AppState) :
  geometryOf s = geometryOf s' -> geometryOk s -> geometryOk s'.
Proof.
  unfold geometryOf. intros H (Hd & Hc & Hr & Hctx).
  injection H as Hcv Hcx Hdp Hce Hra.
  unfold geometryOk. rewrite <- Hdp, <- Hce, <- Hra, <- Hcx.
  repeat split; try assumption.
  intros Ht. destruct (Hctx Ht) as (c & E & H1 & H2 & H3).
  rewrite E in Hcv. destruct (canvasRef s') as [c' |]; [| discriminate].
  cbn [option_map] in Hcv. injection Hcv as Hw Hh _ _ _ Hx.
  exists c'. repeat split; congruence.
Qed.

Lemma terminate_geometry (s : AppState) (ev : PointerEvent) :
  geometryOf (finishDrawing (releaseIfCaptured s ev)) = geometryOf s.
Proof.
  destruct (finishDrawing_geometry (releaseIfCaptured s ev)) as [H _].
  rewrite H. apply releaseIfCaptured_geometry.
Qed.

Lemma geometryOk_step (s : AppState) (e : Event) :
  geometryOk s -> geometryOk (step s e).
Proof.
  intros Hok.
  destruct e as [r | ev | ev | ev | ev | ev]; cbn [step];
    [| apply (geometryOk_transfer s); [symmetry | assumption] ..].
  - unfold initCanvas. destruct (canvasRef s) as [c |] eqn:E;
      [| assumption].
    destruct (context2d c) eqn:Hctx; cbn [negb]; [| assumption].
    unfold geometryOk. cbn [dprRef centerRef radiusRef contextRef canvasRef].
    repeat split; try reflexivity.
    + apply orOne_nonzero.
    + intros _. eexists. split; [reflexivity |]. repeat split.
  - apply handlePointerDown_geometry.
  - apply handlePointerMove_canvas.
  - apply terminate_geometry.
  - apply terminate_geometry.
  - apply terminate_geometry.
Qed.

Lemma bufferMatchesFlag_finish (s : AppState) :
  bufferMatchesFlag s -> bufferMatchesFlag (finishDrawing s).
Proof.
  intros Hb. unfold finishDrawing.
  destruct (isDrawingRef s) eqn:Hd; cbn [negb]; [| assumption].
  cbn [withStroke pointsRef].
  destruct (pointsRef s) as [| p rest] eqn:Hp; cbn [length Nat.eqb];
    unfold bufferMatchesFlag; cbn [isDrawingRef pointsRef withStroke];
    rewrite ?Hp; split; intros H; try discriminate; contradiction.
Qed.

Lemma bufferMatchesFlag_step (s : AppState) (e : Event) :
  bufferMatchesFlag s -> bufferMatchesFlag (step s e).
Proof.
  intros Hb.
  assert (Ht : forall ev,
             bufferMatchesFlag (finishDrawing (releaseIfCaptured s ev))).
  { intros ev. apply bufferMatchesFlag_finish.
    destruct (releaseIfCaptured_refs s ev) as (_ & H1 & H2 & _).
    unfold bufferMatchesFlag. cbv zeta in H1, H2. rewrite H1, H2.
    assumption. }
  destruct e as [r | ev | ev | ev | ev | ev]; cbn [step]; try apply Ht.
  - unfold initCanvas. destruct (canvasRef s) as [c |]; [| assumption].
    destruct (negb (context2d c)); assumption.
  - unfold handlePointerDown. destruct (negb (contextRef s)); [assumption |].
    destruct (getPointerPosition s ev); [| assumption].
    unfold bufferMatchesFlag. cbn [withStroke isDrawingRef pointsRef].
    split; intros _; [discriminate | reflexivity].
  - unfold handlePointerMove.
    destruct (isDrawingRef s) eqn:Hd; cbn [negb]; [| assumption].
    destruct (negb (contextRef s)); [assumption |].
    destruct (getPointerPosition s ev) as [position |]; [| assumption].
    destruct (pointsRef s) as [| q rest] eqn:Hp; [assumption |].
    unfold bufferMatchesFlag. cbn [withStroke isDrawingRef pointsRef app].
    split; intros _; [discriminate | reflexivity].
Qed.

Lemma scoreDrawing_isScore (center : Point) (radius : R)
    (points : list Point) :
  isScore (scoreDrawing center radius points).
Proof.
  unfold isScore, scoreDrawing. destruct (length points <? 6)%nat.
  - exists 0%Z. split; [reflexivity | lia].
  - rewrite scoreTerms_spec. cbn [finalScore]. unfold Math.round.
    rewrite clamp_integer. eexists. split; [reflexivity | lia].
Qed.

Lemma finishDrawing_scores (s : AppState) :
  scoresOf (finishDrawing s) = scoresOf s
  \/ exists v, isScore v
       /\ scoresOf (finishDrawing s) = (Some v, Rmax (bestScore s) v, true).
Proof.
  unfold finishDrawing. destruct (negb (isDrawingRef s)); [left; reflexivity |].
  cbn [withStroke pointsRef centerRef radiusRef canvasRef contextRef
       isDrawingRef dprRef bestScore].
  destruct (length (pointsRef s) =? 0)%nat; [left; reflexivity |].
  right. eexists. split; [apply scoreDrawing_isScore | reflexivity].
Qed.

Lemma step_scores (s : AppState) (e : Event) :
  scoresOf (step s e) = scoresOf s
  \/ exists v, isScore v
       /\ scoresOf (step s e) = (Some v, Rmax (bestScore s) v, true).
Proof.
  assert (Ht : forall ev,
             scoresOf (finishDrawing (releaseIfCaptured s ev)) = scoresOf s
             \/ exists v, isScore v
                  /\ scoresOf (finishDrawing (releaseIfCaptured s ev))
                     = (Some v, Rmax (bestScore s) v, true)).
  { intros ev.
    destruct (releaseIfCaptured_refs s ev)
      as (_ & _ & _ & _ & _ & _ & R1 & R2 & R3).
    cbv zeta in R1, R2, R3.
    destruct (finishDrawing_scores (releaseIfCaptured s ev))
      as [H | (v & Hv & H)].
    - left. rewrite H. unfold scoresOf. congruence.
    - right. exists v. split; [assumption |]. rewrite H, R2. reflexivity. }
  destruct e as [r | ev | ev | ev | ev | ev]; cbn [step]; try apply Ht;
    left.
  - unfold initCanvas. destruct (canvasRef s) as [c |]; [| reflexivity].
    destruct (negb (context2d c)); reflexivity.
  - unfold handlePointerDown. destruct (negb (contextRef s)); [reflexivity |].
    destruct (getPointerPosition s ev); reflexivity.
  - apply handlePointerMove_canvas.
Qed.

Lemma isScore_max (a b : R) : isScore a -> isScore b -> isScore (Rmax a b).
Proof.
  intros Ha Hb. apply Rmax_case; assumption.
Qed.

Lemma scoresOk_step (s : AppState) (e : Event) :
  scoresOk s -> scoresOk (step s e).
Proof.
  intros (Hb & Hl & Hh). unfold scoresOk.
  destruct (step_scores s e) as [H | (v & Hv & H)];
    unfold scoresOf in H; injection H as H1 H2 H3; rewrite H1, H2, H3.
  - repeat split; try assumption; apply Hh || apply Hl; assumption.
  - split; [apply isScore_max; assumption |]. split.
    + intros w Hw. injection Hw as <-. split; [assumption | apply Rmax_r].
    + split; intros _; [discriminate | reflexivity].
Qed.

Lemma reachable_invariants (canvas : option Canvas) (es : list Event) :
  geometryOk (run (initialState canvas) es)
  /\ bufferMatchesFlag (run (initialState canvas) es)
  /\ scoresOk (run (initialState canvas) es).
Proof.
  assert (G : forall es s,
             geometryOk s /\ bufferMatchesFlag s /\ scoresOk s ->
             geometryOk (run s es) /\ bufferMatchesFlag (run s es)
             /\ scoresOk (run s es)).
  { clear. induction es as [| e es IH]; intros s H; [assumption |].
    apply (IH (step s e)). destruct H as (H1 & H2 & H3).
    split; [| split].
    - apply geometryOk_step; assumption.
    - apply bufferMatchesFlag_step; assumption.
    - apply scoresOk_step; assumption. }
  apply G. split; [| split].
  - unfold geometryOk. cbn [initialState dprRef centerRef radiusRef
                            contextRef].
    repeat split; try discriminate. lra.
  - unfold bufferMatchesFlag. cbn [initialState isDrawingRef pointsRef].
    split; [discriminate | intros H; contradiction].
  - unfold scoresOk. cbn [initialState bestScore lastScore hasAttempt].
    split; [exists 0%Z; split; [reflexivity | lia] |].
    split; [discriminate |].
    split; [discriminate | intros H; contradiction].
Qed.

(** X15: In every state reached from the initial one the drawing flag is set
    exactly when the buffer holds samples, so [handlePointerMove] always
    finds a previous sample: while drawing with a context, every move whose
    position is known is appended to the buffer. *)
Theorem drawing_iff_buffer_nonempty (canvas : option Canvas)
    (es : list Event) :
  (isDrawingRef (run (initialState canvas) es) = true
   <-> pointsRef (run (initialState canvas) es) <> [])
  /\ forall event position,
       isDrawingRef (run (initialState canvas) es) = true ->
       contextRef (run (initialState canvas) es) = true ->
       getPointerPosition (run (initialState canvas) es) event
       = Some position ->
       pointsRef (handlePointerMove (run (initialState canvas) es) event)
       = pointsRef (run (initialState canvas) es) ++ [position].
Proof.
  destruct (reachable_invariants canvas es) as (_ & Hb & _).
  set (s := run (initialState canvas) es) in *.
  split; [exact Hb |].
  intros event position Hd Hctx Hpos.
  assert (Hne : pointsRef s <> []) by (apply Hb; assumption).
  destruct (handlePointerMove_appends s event Hd Hctx Hne) as (Hp & _).
  rewrite Hp. unfold samplesOf. cbn [flat_map]. rewrite Hpos, app_nil_r.
  reflexivity.
Qed.

(** X16: In every state reached from the initial one the device pixel
    ratio is not zero, the reference circle is the one of centre
    (CANVAS_SIZE/2, CANVAS_SIZE/2) and radius 0.38 CANVAS_SIZE, of positive
    radius, and a stored context comes with a canvas whose width and height
    are whole numbers, equal to each other and less than 1 away from
    CANVAS_SIZE times the ratio when that product lies between 0 and
    2^31. *)
Theorem reachable_geometry (canvas : option Canvas) (es : list Event) :
  dprRef (run (initialState canvas) es) <> 0
  /\ centerRef (run (initialState canvas) es)
     = mkPoint (CANVAS_SIZE / 2) (CANVAS_SIZE / 2)
  /\ radiusRef (run (initialState canvas) es) = CANVAS_SIZE * 0.38
  /\ 0 < radiusRef (run (initialState canvas) es)
  /\ (contextRef (run (initialState canvas) es) = true ->
      exists c,
        canvasRef (run (initialState canvas) es) = Some c
        /\ context2d c = true
        /\ (exists k : Z, canvas_width c = IZR k)
        /\ (exists k : Z, canvas_height c = IZR k)
        /\ (0 < CANVAS_SIZE * dprRef (run (initialState canvas) es)
                < 2147483648 ->
            canvas_height c = canvas_width c
            /\ CANVAS_SIZE * dprRef (run (initialState canvas) es) - 1
               < canvas_width c
               < CANVAS_SIZE * dprRef (run (initialState canvas) es) + 1)).
Proof.
  destruct (reachable_invariants canvas es) as ((H1 & H2 & H3 & H4) & _).
  split; [assumption |]. split; [assumption |]. split; [assumption |].
  split; [rewrite H3; unfold CANVAS_SIZE; lra |].
  intros Hctx. destruct (H4 Hctx) as (c & Hc & Hx & Hw & Hh).
  set (P := CANVAS_SIZE * dprRef (run (initialState canvas) es)) in *.
  exists c. split; [assumption |]. split; [assumption |].
  split; [rewrite Hw; unfold canvasDimension; eexists; reflexivity |].
  split; [rewrite Hh; unfold canvasDimension; eexists; reflexivity |].
  intros [HP0 HP1].
  destruct (base_Int_part P) as [Hfl1 Hfl2].
  assert (Hk0 : (0 <= Int_part P)%Z).
  { assert (-1 < Int_part P)%Z; [apply lt_IZR; lra | lia]. }
  assert (Hk1 : (Int_part P <= 2147483647)%Z).
  { assert (Int_part P < 2147483648)%Z; [apply lt_IZR; lra | lia]. }
  rewrite Hw, Hh.
  rewrite (canvasDimension_floor 300 (Int_part P)) by (lia || lra).
  rewrite (canvasDimension_floor 150 (Int_part P)) by (lia || lra).
  split; [reflexivity | lra].
Qed.

(** X17: In every reached state that holds a context, with the element
    laid out at CANVAS_SIZE logical pixels and a positive device pixel ratio
    whose product with CANVAS_SIZE is below 2^31, [getPointerPosition]
    returns the client position relative to the element scaled by
    width / CANVAS_SIZE / ratio, where width is the whole number the canvas
    holds; that factor is less than 1 / (CANVAS_SIZE ratio) away from 1, and
    it is 1 when CANVAS_SIZE times the ratio is a whole number. *)
Theorem reachable_pointer_mapping (canvas : option Canvas) (es : list Event)
    (c : Canvas) (event : PointerEvent) :
  contextRef (run (initialState canvas) es) = true ->
  canvasRef (run (initialState canvas) es) = Some c ->
  rect_width (boundingClientRect c) = CANVAS_SIZE ->
  0 < dprRef (run (initialState canvas) es) ->
  CANVAS_SIZE * dprRef (run (initialState canvas) es) < 2147483648 ->
  exists k : Z,
    canvas_width c = IZR k
    /\ getPointerPosition (run (initialState canvas) es) event
       = Some (mkPoint
                 ((clientX event - rect_left (boundingClientRect c))
                  * (IZR k / CANVAS_SIZE
                     / dprRef (run (initialState canvas) es)))
                 ((clientY event - rect_top (boundingClientRect c))
                  * (IZR k / CANVAS_SIZE
                     / dprRef (run (initialState canvas) es))))
    /\ 1 - 1 / (CANVAS_SIZE * dprRef (run (initialState canvas) es))
       < IZR k / CANVAS_SIZE / dprRef (run (initialState canvas) es)
       < 1 + 1 / (CANVAS_SIZE * dprRef (run (initialState canvas) es))
    /\ (wholeBackingStore (dprRef (run (initialState canvas) es)) ->
        IZR k / CANVAS_SIZE / dprRef (run (initialState canvas) es) = 1).
Proof.
  intros Hctx Hc Hw Hpos Hmax.
  destruct (reachable_invariants canvas es) as ((Hd & _ & _ & Hcv) & _).
  set (s := run (initialState canvas) es) in *.
  destruct (Hcv Hctx) as (c' & Hc' & _ & Hwidth & _).
  assert (c' = c) by congruence. subst c'.
  set (P := CANVAS_SIZE * dprRef s) in *.
  assert (HP : 0 < P) by (unfold P, CANVAS_SIZE; nra).
  destruct (base_Int_part P) as [Hfl1 Hfl2].
  assert (Hk0 : (0 <= Int_part P)%Z).
  { assert (-1 < Int_part P)%Z; [apply lt_IZR; lra | lia]. }
  assert (Hk1 : (Int_part P <= 2147483647)%Z).
  { assert (Int_part P < 2147483648)%Z; [apply lt_IZR; lra | lia]. }
  assert (HW : canvas_width c = IZR (Int_part P)).
  { rewrite Hwidth. apply canvasDimension_floor; [lia | lra]. }
  exists (Int_part P).
  assert (Hinv : 0 < / P) by (apply Rinv_0_lt_compat; assumption).
  assert (Hf : IZR (Int_part P) / CANVAS_SIZE / dprRef s
               = IZR (Int_part P) / P).
  { unfold P, CANVAS_SIZE. field. lra. }
  split; [assumption |]. split; [| split].
  - unfold getPointerPosition. rewrite Hc. cbv zeta. rewrite HW, Hw.
    reflexivity.
  - rewrite Hf. unfold Rdiv. split.
    + apply Rmult_lt_reg_r with P; [assumption |].
      rewrite Rmult_assoc, Rinv_l by lra.
      rewrite Rmult_minus_distr_r, Rmult_assoc, Rinv_l by lra. lra.
    + apply Rmult_lt_reg_r with P; [assumption |].
      rewrite Rmult_assoc, Rinv_l by lra.
      rewrite Rmult_plus_distr_r, Rmult_assoc, Rinv_l by lra. lra.
  - intros (k & Hk & Hwhole). fold P in Hwhole.
    assert (Hint : Int_part P = k).
    { symmetry. apply Int_part_spec. rewrite Hwhole. lra. }
    rewrite Hf, Hint, <- Hwhole. field. lra.
Qed.

Lemma reachable_pointer_mapping_witness :
  let es := [CanvasEffect 3; PointerDown demoDown; PointerMove demoMove;
             PointerUp demoMove; CanvasEffect 0.6666666865348816;
             PointerDown demoMove] in
  let s := run (initialState (Some demoCanvas)) es in
  let c := effectCanvas 0.6666666865348816 [1%nat] in
  exists k : Z,
    canvas_width c = IZR k
    /\ getPointerPosition s demoDown
       = Some (mkPoint
                 ((clientX demoDown - rect_left (boundingClientRect c))
                  * (IZR k / CANVAS_SIZE / dprRef s))
                 ((clientY demoDown - rect_top (boundingClientRect c))
                  * (IZR k / CANVAS_SIZE / dprRef s)))
    /\ 1 - 1 / (CANVAS_SIZE * dprRef s)
       < IZR k / CANVAS_SIZE / dprRef s
       < 1 + 1 / (CANVAS_SIZE * dprRef s)
    /\ (wholeBackingStore (dprRef s) ->
        IZR k / CANVAS_SIZE / dprRef s = 1).
Proof.
  intros es s c.
  assert (Hd : dprRef s = 0.6666666865348816).
  { change (dprRef s) with (orOne 0.6666666865348816).
    apply orOne_nonzero_eq. lra. }
  apply (reachable_pointer_mapping (Some demoCanvas) es c demoDown).
  - reflexivity.
  - reflexivity.
  - reflexivity.
  - fold s. rewrite Hd. lra.
  - fold s. rewrite Hd. unfold CANVAS_SIZE. lra.
Defined.

(** X18: In every state reached from the initial one [bestScore] and [lastScore]
    are integers of [0,100], [lastScore] is at most [bestScore], and
    [hasAttempt] is true exactly when [lastScore] is non-null: the two
    score fields show a number together or the placeholder together, and
    the last score shown is the stored one. *)
Theorem reachable_scores (canvas : option Canvas) (es : list Event) :
  isScore (bestScore (run (initialState canvas) es))
  /\ (forall v, lastScore (run (initialState canvas) es) = Some v ->
        isScore v /\ v <= bestScore (run (initialState canvas) es))
  /\ (hasAttempt (run (initialState canvas) es) = true
      <-> lastScore (run (initialState canvas) es) <> None)
  /\ lastScoreDisplay (run (initialState canvas) es)
     = lastScore (run (initialState canvas) es)
  /\ (bestScoreDisplay (run (initialState canvas) es) = None
      <-> lastScoreDisplay (run (initialState canvas) es) = None).
Proof.
  destruct (reachable_invariants canvas es) as (_ & _ & (H1 & H2 & H3)).
  set (s := run (initialState canvas) es) in *.
  split; [assumption |]. split; [assumption |]. split; [assumption |].
  unfold lastScoreDisplay, bestScoreDisplay.
  destruct (hasAttempt s) eqn:Hh.
  - destruct (lastScore s) as [v |] eqn:Hl.
    + split; [reflexivity |]. split; discriminate.
    + exfalso. apply H3; reflexivity.
  - destruct (lastScore s) as [v |] eqn:Hl.
    + assert (false = true) by (apply H3; discriminate). discriminate.
    + split; [reflexivity |]. split; reflexivity.
Qed.

(** * Properties of the rendering calls *)

Lemma point_eta (p : Point) : mkPoint (x p) (y p) = p.
Proof. destruct p. reflexivity. Qed.

Lemma handlePointerMoveCalls_segment (s : AppState) (event : PointerEvent)
    (position : Point) (rest : list ContextCall) :
  isDrawingRef s = true ->
  contextRef s = true ->
  pointsRef s <> [] ->
  getPointerPosition s event = Some position ->
  (exists tail, handlePointerMoveCalls s event = BeginPath :: tail)
  /\ strokedSegments (handlePointerMoveCalls s event ++ rest)
     = (last (pointsRef s) origin, position) :: strokedSegments rest.
Proof.
  intros Hd Hctx Hne Hpos. unfold handlePointerMoveCalls.
  rewrite Hd, Hctx, Hpos. cbn [negb].
  destruct (pointsRef s) as [| q l] eqn:Hp; [contradiction |].
  split; [eexists; reflexivity |].
  cbn [app strokedSegments]. rewrite !point_eta. reflexivity.
Qed.

Lemma moves_draw_segments (events : list PointerEvent) (s : AppState)
    (canvas : Canvas) :
  isDrawingRef s = true ->
  contextRef s = true ->
  canvasRef s = Some canvas ->
  pointsRef s <> [] ->
  (runCalls s (map PointerMove events) = []
   \/ exists tail, runCalls s (map PointerMove events) = BeginPath :: tail)
  /\ strokedSegments (runCalls s (map PointerMove events))
     = Spec.segments (last (pointsRef s) origin :: samplesOf s events).
Proof.
  revert s. induction events as [| ev events IH]; intros s Hd Hctx Hc Hne.
  - split; [left; reflexivity | reflexivity].
  - cbn [map runCalls step stepCalls].
    assert (Hpos : exists position, getPointerPosition s ev = Some position).
    { unfold getPointerPosition. rewrite Hc. eexists. reflexivity. }
    destruct Hpos as [position Hpos].
    destruct (handlePointerMoveCalls_segment s ev position
                (runCalls (handlePointerMove s ev) (map PointerMove events))
                Hd Hctx Hne Hpos) as [[tail Htail] Hseg].
    split.
    + right. rewrite Htail. eexists. reflexivity.
    + rewrite Hseg.
      destruct (handlePointerMove_appends s ev Hd Hctx Hne)
        as (Hp & Hd' & Hctx').
      destruct (handlePointerMove_canvas s ev) as (Hcv & Hg & _).
      assert (Hne' : pointsRef (handlePointerMove s ev) <> []).
      { rewrite Hp. destruct (pointsRef s); [contradiction | discriminate]. }
      assert (Hc' : canvasRef (handlePointerMove s ev) = Some canvas)
        by congruence.
      destruct (IH (handlePointerMove s ev) Hd' Hctx' Hc' Hne') as [_ IHs].
      rewrite IHs, Hp, (samplesOf_geometry _ _ events Hg).
      rewrite (samplesOf_cons s ev events).
      unfold samplesOf at 1 3. cbn [flat_map]. rewrite Hpos, app_nil_r.
      rewrite last_last. reflexivity.
Qed.

(** X19: What is drawn is what is scored: over a gesture (a pointer-down and any
    pointer-moves, with a canvas and a context in place) the line segments
    stroked on the context are exactly the consecutive pairs of the
    recorded samples, in order. *)
Theorem gesture_draws_its_segments (s : AppState) (canvas : Canvas)
    (down : PointerEvent) (moves : list PointerEvent) :
  contextRef s = true ->
  canvasRef s = Some canvas ->
  strokedSegments (runCalls s (PointerDown down :: map PointerMove moves))
  = Spec.segments
      (pointsRef (run s (PointerDown down :: map PointerMove moves))).
Proof.
  intros Hctx Hc.
  destruct (gesture_state s canvas down moves Hctx Hc) as (Hpts & _).
  rewrite Hpts. cbn [runCalls step stepCalls].
  destruct (handlePointerDown_starts s canvas down Hctx Hc)
    as (position & Hpos & Hp & Hd & Hcv & _).
  pose proof (handlePointerDown_geometry s down) as Hg.
  assert (Hctx' : contextRef (handlePointerDown s down) = true).
  { unfold geometryOf in Hg. injection Hg as _ Hg _ _ _. congruence. }
  assert (Hne : pointsRef (handlePointerDown s down) <> [])
    by (rewrite Hp; discriminate).
  destruct (moves_draw_segments moves (handlePointerDown s down) _
              Hd Hctx' Hcv Hne) as [Hhead Hseg].
  rewrite Hp in Hseg. cbn [last] in Hseg.
  rewrite (samplesOf_geometry _ _ moves Hg) in Hseg.
  rewrite (samplesOf_cons s down moves).
  unfold samplesOf at 1. cbn [flat_map]. rewrite Hpos, app_nil_r.
  cbn [app]. rewrite <- Hseg.
  unfold handlePointerDownCalls, drawReferenceCircleCalls, clearCanvasCalls.
  rewrite Hctx, Hpos, Hc. cbn [negb app strokedSegments].
  destruct Hhead as [-> | [tail ->]]; reflexivity.
Qed.

Lemma gesture_draws_its_segments_witness :
  let s := initCanvas 2 (initialState (Some demoCanvas)) in
  let es := PointerDown demoDown :: map PointerMove [demoMove; demoDown] in
  strokedSegments (runCalls s es) = Spec.segments (pointsRef (run s es)).
Proof.
  intros s es.
  apply (gesture_draws_its_segments s
           (effectCanvas 2 [])
           demoDown [demoMove; demoDown]); reflexivity.
Defined.

Lemma saveDepth_app (l1 l2 : list ContextCall) (d d' : nat) :
  saveDepth l1 d = Some d' -> saveDepth (l1 ++ l2) d = saveDepth l2 d'.
Proof.
  revert d. induction l1 as [| c l1 IH]; intros d H.
  - cbn in H. injection H as <-. reflexivity.
  - destruct c; cbn [app saveDepth] in *; try (apply IH; assumption).
    destruct d as [| d0]; [discriminate | apply IH; assumption].
Qed.

Lemma stepCalls_balanced (s : AppState) (e : Event) (d : nat) :
  saveDepth (stepCalls s e) d = Some d.
Proof.
  destruct e as [r | ev | ev | ev | ev | ev]; cbn [stepCalls];
    try reflexivity.
  - unfold initCanvasCalls.
    destruct (canvasRef s) as [c |] eqn:E; [| reflexivity].
    destruct (context2d c) eqn:Hc; cbn [negb]; [| reflexivity].
    unfold drawReferenceCircleCalls, clearCanvasCalls, initCanvas.
    rewrite E, Hc. reflexivity.
  - unfold handlePointerDownCalls, drawReferenceCircleCalls,
      clearCanvasCalls.
    destruct (contextRef s); cbn [negb]; [| reflexivity].
    destruct (getPointerPosition s ev); [| reflexivity].
    destruct (canvasRef s); reflexivity.
  - unfold handlePointerMoveCalls.
    destruct (isDrawingRef s); cbn [negb]; [| reflexivity].
    destruct (contextRef s); cbn [negb]; [| reflexivity].
    destruct (getPointerPosition s ev); [| reflexivity].
    destruct (pointsRef s); reflexivity.
Qed.

(** X20: Over any sequence of events, from any state, the calls on the context
    keep [save] and [restore] paired: no [restore] comes without its
    [save], and the state stack ends at the depth it started from. *)
Theorem context_stack_balanced (s : AppState) (es : list Event)
    (depth : nat) :
  saveDepth (runCalls s es) depth = Some depth.
Proof.
  revert s. induction es as [| e es IH]; intros s; [reflexivity |].
  cbn [runCalls].
  rewrite (saveDepth_app _ _ depth depth (stepCalls_balanced s e depth)).
  apply IH.
Qed.

(** * Coverage grows with the stroke *)

Lemma pathLength_snoc_le (l : list Point) (p : Point) :
  Spec.pathLength l <= Spec.pathLength (l ++ [p]).
Proof.
  destruct l as [| a l'] using rev_ind.
  - unfold Spec.pathLength. simpl. lra.
  - rewrite <- app_assoc. cbn [app]. rewrite pathLength_snoc2.
    pose proof (distance_nonneg a p). lra.
Qed.

Lemma pow_three_quarters_monotone (a b : R) :
  0 <= a <= b -> Math.pow a 0.75 <= Math.pow b 0.75.
Proof.
  intros [Ha Hab]. unfold Math.pow.
  destruct (Req_dec_T a 0) as [Ea | Ea], (Req_dec_T b 0) as [Eb | Eb];
    try lra.
  - apply Rlt_le, exp_pos.
  - apply Rle_Rpower_l; lra.
Qed.

(** X6: Recording one more sample never lowers the coverage ratio nor the
    coverage score of the stroke, for a circle of positive radius. *)
Theorem coverage_grows_with_stroke (center : Point) (radius : R)
    (points : list Point) (p : Point) :
  0 < radius ->
  coverageRatio (scoreTerms center radius points)
  <= coverageRatio (scoreTerms center radius (points ++ [p]))
  /\ coverageScore (scoreTerms center radius points)
     <= coverageScore (scoreTerms center radius (points ++ [p])).
Proof.
  intros Hr. rewrite !scoreTerms_spec. cbn [coverageRatio coverageScore].
  assert (Hc : Spec.coverageRatio radius points
               <= Spec.coverageRatio radius (points ++ [p])).
  { unfold Spec.coverageRatio.
    pose proof (pathLength_snoc_le points p) as Hl.
    pose proof PI_RGT_0 as Hpi.
    assert (Hd : 0 < / (2 * PI * radius * 0.9))
      by (apply Rinv_0_lt_compat; nra).
    apply Rle_min_compat_r. unfold Rdiv.
    apply Rmult_le_compat_r; lra. }
  split; [assumption |].
  unfold Spec.coverageScore. apply pow_three_quarters_monotone.
  split; [apply coverageRatio_range; assumption | assumption].
Qed.

Lemma coverage_grows_with_stroke_witness :
  coverageRatio (scoreTerms exampleCenter exampleRadius exampleStroke)
  <= coverageRatio (scoreTerms exampleCenter exampleRadius
                               (exampleStroke ++ [mkPoint 0 0]))
  /\ coverageScore (scoreTerms exampleCenter exampleRadius exampleStroke)
     <= coverageScore (scoreTerms exampleCenter exampleRadius
                                  (exampleStroke ++ [mkPoint 0 0])).
Proof.
  apply (coverage_grows_with_stroke exampleCenter exampleRadius).
  unfold exampleRadius. lra.
Defined.
